(** * decimals: rounding and formatting of base ten numbers

    A shallow embedding of the Go package [decimals] and of the parts of the
    language and of the packages [strconv] and [math] it relies on, followed
    by the properties of its rounding and formatting functions.

    The package exists in two implementations.  The one of decimals.go
    rounds an int64 on the digits of its decimal representation and a
    float64 through [strconv.FormatFloat]; the other one, in the module
    [Scaling] below, rounds both by scaling with a power of ten in float64
    arithmetic.  Both share [FormatThousands]. *)

From Stdlib Require Import ZArith Ascii String Lia.
From Stdlib Require Import Floats.SpecFloat.
From stdpp Require Import base option list.

Local Open Scope Z_scope.

(** ** The language: integers, slices, strings *)

Module Go.

(** An [int64] is an integer of [Z] in the range below.  The precision of
    the functions is an [int]; the only arithmetic on it, for a negative
    precision, is its sum with a length of at most twenty, which cannot
    leave the range of [int], hence precisions are integers of [Z] too. *)
Definition min_int64 : Z := - 2 ^ 63.
Definition max_int64 : Z := 2 ^ 63 - 1.
Definition max_uint64 : Z := 2 ^ 64 - 1.

Definition int64 (x : Z) : Prop := min_int64 <= x <= max_int64.

(** The negation of an [int], which wraps around. *)
Definition wrap64 (z : Z) : Z := (z + 2 ^ 63) mod 2 ^ 64 - 2 ^ 63.

(** A [byte] is an 8 bit character; a [[]byte] is a list of them. *)
Abbreviation byte := ascii.

Definition len {A} (s : list A) : Z := Z.of_nat (length s).

(** [s[i]]: panics ([None]) when the index is out of range. *)
Definition index {A} (s : list A) (i : Z) : option A :=
  if i <? 0 then None else s !! Z.to_nat i.

(** [s[i] = v]: panics ([None]) when the index is out of range. *)
Definition store {A} (s : list A) (i : Z) (v : A) : option (list A) :=
  if (0 <=? i) && (i <? len s) then Some (<[Z.to_nat i := v]> s) else None.

(** [s[lo:]]: panics ([None]) when [lo] is out of range. *)
Definition slice_from {A} (s : list A) (lo : Z) : option (list A) :=
  if (0 <=? lo) && (lo <=? len s) then Some (drop (Z.to_nat lo) s) else None.

(** [make([]byte, n)]: [n] zero bytes; panics for a negative length. *)
Definition make_bytes (n : Z) : option (list byte) :=
  if n <? 0 then None else Some (replicate (Z.to_nat n) Ascii.zero).

(** [[]byte(s)] and [string(b)]. *)
Definition bytes_of_string (s : string) : list byte := list_ascii_of_string s.
Definition string_of_bytes (b : list byte) : string := string_of_list_ascii b.

End Go.

Import Go.

(** ** float64

    A float64 is a binary64 number of the IEEE 754 standard, as specified by
    [spec_float] with a precision of 53 bits; the operations round to the
    nearest float, ties to even. *)

Module float64.

Definition prec : Z := 53.
Definition emax : Z := 1024.

Abbreviation t := spec_float.

(** The floats of the type are the canonical ones. *)
Definition valid (x : t) : Prop := valid_binary prec emax x = true.

Definition zero : t := S754_zero false.
Definition half : t := S754_finite false 4503599627370496 (-53).
Definition one : t := S754_finite false 4503599627370496 (-52).
Definition ten : t := S754_finite false 5629499534213120 (-49).
Definition inf : t := S754_infinity false.

Definition add : t -> t -> t := SFadd prec emax.
Definition sub : t -> t -> t := SFsub prec emax.
Definition mul : t -> t -> t := SFmul prec emax.
Definition div : t -> t -> t := SFdiv prec emax.
Definition neg : t -> t := SFopp.
Definition ltb : t -> t -> bool := SFltb.
Definition leb : t -> t -> bool := SFleb.
Definition eqb : t -> t -> bool := SFeqb.

(** [float64(i)] for an integer [i]: the nearest float64. *)
Definition of_int (i : Z) : t := binary_normalize prec emax i 0 false.

(** The integer part of a finite float, its fraction discarded toward
    zero. *)
Definition truncate (f : t) : option Z :=
  match f with
  | S754_zero _ => Some 0
  | S754_finite s m e =>
      Some (if 0 <=? e then cond_Zopp s (Z.pos m) * 2 ^ e
            else cond_Zopp s (Z.pos m) ÷ 2 ^ (- e))
  | _ => None
  end.

(** [int64(f)]: the integer part of [f].  Where it does not fit in an int64,
    also for a NaN and for the infinities, Go leaves the value to the
    implementation; amd64 yields the least int64. *)
Definition to_int64 (f : t) : Z :=
  match truncate f with
  | Some v => if (min_int64 <=? v) && (v <=? max_int64) then v else min_int64
  | None => min_int64
  end.

End float64.

(** ** The package math *)

Module math.

Import float64.

Definition Abs (x : t) : t := SFabs x.

(** [Copysign(f, sign)]: [f] with the sign of [sign]. *)
Definition Copysign (f sign : t) : t :=
  let s := match sign with
           | S754_zero s | S754_infinity s | S754_finite s _ _ => s
           | S754_nan => false
           end in
  match f with
  | S754_zero _ => S754_zero s
  | S754_infinity _ => S754_infinity s
  | S754_finite _ m e => S754_finite s m e
  | S754_nan => S754_nan
  end.

(** [Modf] on an argument that is not negative: below one the integer part
    is zero, otherwise the bits of the mantissa below the binary point are
    cleared; the fractional part is the rest. *)
Definition modf_nonneg (f : t) : t * t :=
  if ltb f one then
    if eqb f zero then (f, f) else (zero, f)
  else
    let int :=
      match f with
      | S754_finite s m e =>
          if e <? 0 then S754_finite s (Z.to_pos (Z.ldiff (Z.pos m) (Z.ones (- e)))) e
          else f
      | _ => f
      end in
    (int, sub f int).

(** [Modf(f)]: the integer and the fractional part of [f], both with its
    sign. *)
Definition Modf (f : t) : t * t :=
  if ltb f one && ltb f zero then
    let '(int, frac) := modf_nonneg (neg f) in (neg int, neg frac)
  else modf_nonneg f.

Definition is_nan_or_inf (x : t) : bool :=
  match x with
  | S754_nan | S754_infinity _ => true
  | _ => false
  end.

Definition Floor (x : t) : t :=
  if eqb x zero || is_nan_or_inf x then x
  else if ltb x zero then
    let '(d, fract) := Modf (neg x) in
    let d := if negb (eqb fract zero) then add d one else d in
    neg d
  else fst (Modf x).

Definition Ceil (x : t) : t := neg (Floor (neg x)).

(** The loop of [Pow] over the bits of the exponent [i], with the
    accumulated power [a1 * 2^ae] and the current square [x1 * 2^xe]; an
    int64 has 64 bits, which bounds the loop. *)
Fixpoint pow_loop (fuel : nat) (i : Z) (a1 : t) (ae : Z) (x1 : t) (xe : Z) : t * Z :=
  match fuel with
  | O => (a1, ae)
  | S fuel' =>
      if i =? 0 then (a1, ae)
      else if (xe <? - 4096) || (4096 <? xe) then (a1, ae + xe)
      else
        let '(a1, ae) := if Z.odd i then (mul a1 x1, ae + xe) else (a1, ae) in
        let x1 := mul x1 x1 in
        let xe := xe * 2 in
        let '(x1, xe) := if ltb x1 half then (add x1 x1, xe - 1) else (x1, xe) in
        pow_loop fuel' (Z.shiftr i 1) a1 ae x1 xe
  end.

(** [Pow(10, y)] for a finite [y] with an integer value, which is how the
    package calls it. *)
Definition Pow10 (y : t) : t :=
  if eqb y zero then one
  else if eqb y one then ten
  else
    let yi := Abs y in
    if leb (of_int (2 ^ 63)) yi then
      if ltb zero y then inf else zero
    else
      let '(x1, xe) := SFfrexp prec emax ten in
      let '(a1, ae) := pow_loop 64 (to_int64 yi) one 0 x1 xe in
      let '(a1, ae) := if ltb y zero then (div one a1, - ae) else (a1, ae) in
      SFldexp prec emax a1 ae.

End math.

(** ** The package strconv *)

Module strconv.

Import float64.

(** The byte ['0' + d]. *)
Definition digit_byte (d : Z) : byte := ascii_of_nat (48 + Z.to_nat d).

(** The digit of a byte in ['0'..'9']. *)
Definition byte_digit (c : byte) : option Z :=
  let n := Z.of_nat (nat_of_ascii c) in
  if (48 <=? n) && (n <=? 57) then Some (n - 48) else None.

(** [formatBits] in base ten: the digits of [u] are produced from the least
    significant one, in at most [fuel] steps. *)
Fixpoint format_bits (fuel : nat) (u : Z) (acc : list byte) : list byte :=
  match fuel with
  | O => acc
  | S fuel' =>
      let acc' := digit_byte (u mod 10) :: acc in
      if u / 10 =? 0 then acc' else format_bits fuel' (u / 10) acc'
  end.

(** [FormatInt(i, 10)]; a uint64 has at most twenty digits. *)
Definition FormatInt (i : Z) : string :=
  let digits := format_bits 20 (Z.abs i) [] in
  string_of_bytes (if i <? 0 then "-"%char :: digits else digits).

(** The two kinds of [NumError]. *)
Inductive NumError : Type := ErrSyntax | ErrRange.

(** The loop of [ParseUint(s, 10, 64)] over the bytes of [s], with the
    accumulator [n]: a byte that is not a decimal digit is a syntax error
    with the value 0, an overflow is a range error with the value
    [max_uint64]. *)
Fixpoint parse_uint_loop (s : list byte) (n : Z) : Z * option NumError :=
  match s with
  | [] => (n, None)
  | c :: s' =>
      match byte_digit c with
      | None => (0, Some ErrSyntax)
      | Some d =>
          if n >=? max_uint64 / 10 + 1 then (max_uint64, Some ErrRange)
          else
            let n10 := n * 10 in
            let n1 := (n10 + d) mod 2 ^ 64 in
            if (n1 <? n10) || (n1 >? max_uint64) then (max_uint64, Some ErrRange)
            else parse_uint_loop s' n1
      end
  end.

Definition ParseUint (s : list byte) : Z * option NumError :=
  match s with
  | [] => (0, Some ErrSyntax)
  | _ => parse_uint_loop s 0
  end.

(** [ParseInt(s, 10, 64)]: the value and the error.  A value out of range
    comes back as the bound of the range with its sign. *)
Definition ParseInt (s : string) : Z * option NumError :=
  match bytes_of_string s with
  | [] => (0, Some ErrSyntax)
  | c :: rest =>
      let '(neg, digits) :=
        if Ascii.eqb c "+"%char then (false, rest)
        else if Ascii.eqb c "-"%char then (true, rest)
        else (false, c :: rest) in
      match ParseUint digits with
      | (_, Some ErrSyntax) => (0, Some ErrSyntax)
      | (un, _) =>
          let cutoff := 2 ^ 63 in
          if negb neg && (un >=? cutoff) then (cutoff - 1, Some ErrRange)
          else if neg && (un >? cutoff) then (- cutoff, Some ErrRange)
          else (if neg then - un else un, None)
      end
  end.

(** The digits of an integer of any size. *)
Definition decimal_digits (u : Z) : list byte :=
  format_bits (S (Z.to_nat (Z.log2 u))) u [].

(** [n] digits of [u], padded with zeros on the left. *)
Fixpoint fixed_digits (n : nat) (u : Z) (acc : list byte) : list byte :=
  match n with
  | O => acc
  | S n' => fixed_digits n' (u / 10) (digit_byte (u mod 10) :: acc)
  end.

(** The integer nearest to [m * 2^e], ties to even. *)
Definition round_half_even (m e : Z) : Z :=
  if 0 <=? e then m * 2 ^ e
  else
    let den := 2 ^ (- e) in
    let q := m / den in
    let r := m mod den in
    if 2 * r <? den then q
    else if den <? 2 * r then q + 1
    else if Z.even q then q else q + 1.

(** [FormatFloat(x, 'f', prec, 64)] for [prec >= 0]: the exact decimal
    expansion of [x] rounded to [prec] digits after the point, ties to
    even. *)
Definition FormatFloat (x : t) (prec : Z) : string :=
  let fmt (s : bool) (n : Z) :=
    (if s then ["-"%char] else [])
      ++ decimal_digits (n / 10 ^ prec)
      ++ (if 0 <? prec
          then "."%char :: fixed_digits (Z.to_nat prec) (n mod 10 ^ prec) []
          else []) in
  match x with
  | S754_nan => "NaN"%string
  | S754_infinity false => "+Inf"%string
  | S754_infinity true => "-Inf"%string
  | S754_zero s => string_of_bytes (fmt s 0)
  | S754_finite s m e =>
      string_of_bytes (fmt s (round_half_even (Z.pos m * 10 ^ prec) e))
  end.

(** Digits with at most one point: the digits read as an integer and the
    number of digits after the point; [None] without any digit or with
    another byte. *)
Fixpoint parse_decimal (s : list byte) (n frac : Z) (point digit : bool)
  : option (Z * Z) :=
  match s with
  | [] => if digit then Some (n, frac) else None
  | c :: s' =>
      if Ascii.eqb c "."%char then
        if point then None else parse_decimal s' n frac true digit
      else
        match byte_digit c with
        | Some d =>
            parse_decimal s' (n * 10 + d) (if point then frac + 1 else frac) point true
        | None => None
        end
  end.

(** [ParseFloat(s, 64)] on the strings that [FormatFloat] produces with the
    format ['f']: a sign, digits and a point, or a NaN or an infinity.  The
    value is the float64 nearest to the decimal number, ties to even; an
    exponent part is not modelled. *)
Definition ParseFloat (s : string) : t * option NumError :=
  if String.eqb s "NaN" then (S754_nan, None)
  else if String.eqb s "+Inf" || String.eqb s "Inf" then (S754_infinity false, None)
  else if String.eqb s "-Inf" then (S754_infinity true, None)
  else
    let '(sign, digits) :=
      match bytes_of_string s with
      | c :: rest =>
          if Ascii.eqb c "+"%char then (false, rest)
          else if Ascii.eqb c "-"%char then (true, rest)
          else (false, c :: rest)
      | [] => (false, [])
      end in
    match parse_decimal digits 0 0 false false with
    | None => (zero, Some ErrSyntax)
    | Some (Z.pos n, frac) =>
        match div (S754_finite sign n 0)
                  (S754_finite false (Z.to_pos (10 ^ frac)) 0) with
        | S754_infinity s => (S754_infinity s, Some ErrRange)
        | f => (f, None)
        end
    | Some (_, _) => (S754_zero sign, None)
    end.

End strconv.

(** A float64 constant, by its decimal notation. *)
Definition literal (s : string) : float64.t := fst (strconv.ParseFloat s).

(** ** decimals.go *)

(** The map [decimalInts] from the decimal bytes to their values; a byte
    that is not a key yields the zero value. *)
Definition decimalInts (c : byte) : Z :=
  match strconv.byte_digit c with
  | Some d => d
  | None => 0
  end.

(** The array [decimalBytes] from the decimal values to their bytes. *)
Definition decimalBytes : list byte :=
  ["0"; "1"; "2"; "3"; "4"; "5"; "6"; "7"; "8"; "9"]%char.

(** The loop that moves left from the rounding digit to the first digit
    below nine, increments it and records the index after it in [zeroFrom];
    [zeroFrom] stays [-1] when every digit on the way is a nine. *)
Fixpoint carry_loop (i : nat) (xslice : list byte) : option (list byte * Z) :=
  match i with
  | O => Some (xslice, -1)
  | S j =>
      c ← index xslice (Z.of_nat j);
      let nextDigit := decimalInts c in
      if nextDigit <? 9 then
        b ← index decimalBytes (nextDigit + 1);
        xslice' ← store xslice (Z.of_nat j) b;
        Some (xslice', Z.of_nat i)
      else carry_loop j xslice
  end.

(** The loop [for i := zeroFrom; i < len(xslice); i++ { xslice[i] = '0' }],
    with [n] the number of iterations left. *)
Fixpoint zero_loop (n : nat) (i : Z) (xslice : list byte) : option (list byte) :=
  match n with
  | O => Some xslice
  | S n' =>
      xslice' ← store xslice i "0"%char;
      zero_loop n' (i + 1) xslice'
  end.

(** How the body of [RoundInt] ends: with one of its early returns, or with
    the conversion of the string of the rounded digits. *)
Inductive ending : Type :=
  | Return (r : Z)
  | Convert (rstr : string).

(** The last steps before the conversion, common to the branches that reach
    it: zero the digits from [zeroFrom], put the sign back and make the
    string. *)
Definition round_string (x : Z) (xslice : list byte) (zeroFrom : Z) : option ending :=
  xslice ← zero_loop (Z.to_nat (len xslice - zeroFrom)) zeroFrom xslice;
  let xslice := if x <? 0 then "-"%char :: xslice else xslice in
  let rstr := string_of_bytes xslice in
  Some (Convert rstr).

(** The body of [RoundInt] up to its end. *)
Definition round_digits (x : Z) (precision : Z) : option ending :=
  let xstr := strconv.FormatInt x in
  let xslice := bytes_of_string xstr in
  if precision >? -1 then Some (Return x)
  else
    xslice ← (if x <? 0 then slice_from xslice 1 else Some xslice);
    let roundFrom := len xslice + precision in
    if roundFrom <? 0 then Some (Return 0)
    else if roundFrom =? 0 then
      c ← index xslice 0;
      let firstDigit := decimalInts c in
      if firstDigit <? 5 then Some (Return 0)
      else round_string x ("1"%char :: xslice) 1
    else
      c ← index xslice roundFrom;
      let roundDigit := decimalInts c in
      if roundDigit <? 5 then round_string x xslice roundFrom
      else
        '(xslice, zeroFrom) ← carry_loop (Z.to_nat roundFrom) xslice;
        if zeroFrom =? -1 then round_string x ("1"%char :: xslice) 1
        else round_string x xslice zeroFrom.

(** The conversion back to an int64, which discards the error of
    [ParseInt]. *)
Definition convert (e : ending) : option Z :=
  match e with
  | Return r => Some r
  | Convert rstr => let '(r, _) := strconv.ParseInt rstr in Some r
  end.

Definition RoundInt (x : Z) (precision : Z) : option Z :=
  e ← round_digits x precision;
  convert e.

Definition RoundFloat (x : float64.t) (precision : Z) : option float64.t :=
  if precision <? 0 then
    let '(i, _) := math.Modf x in
    r ← RoundInt (float64.to_int64 i) precision;
    Some (float64.of_int r)
  else
    let rstr := strconv.FormatFloat x precision in
    let '(r, _) := strconv.ParseFloat rstr in
    Some r.

(** One copy [fslice[j] = xslice[i]], followed by [i--] and [j--]. *)
Definition copy_step (xslice : list byte) (st : list byte * Z * Z)
  : option (list byte * Z * Z) :=
  let '(fslice, i, j) := st in
  c ← index xslice i;
  fslice' ← store fslice j c;
  Some (fslice', i - 1, j - 1).

(** [n] copies in a row. *)
Fixpoint copy_loop (n : nat) (xslice : list byte) (st : list byte * Z * Z)
  : option (list byte * Z * Z) :=
  match n with
  | O => Some st
  | S n' => st' ← copy_step xslice st; copy_loop n' xslice st'
  end.

(** A batch of three digits and its comma. *)
Definition batch_step (xslice : list byte) (st : list byte * Z * Z)
  : option (list byte * Z * Z) :=
  '(fslice, i, j) ← copy_loop 3 xslice st;
  fslice' ← store fslice j ","%char;
  Some (fslice', i, j - 1).

Fixpoint batch_loop (n : nat) (xslice : list byte) (st : list byte * Z * Z)
  : option (list byte * Z * Z) :=
  match n with
  | O => Some st
  | S n' => st' ← batch_step xslice st; batch_loop n' xslice st'
  end.

(** The last loop copies while [i >= 0], that is [i + 1] times. *)
Definition FormatThousands (x : Z) : option string :=
  let xstr := strconv.FormatInt x in
  let xslice := bytes_of_string xstr in
  let lenx := len xslice in
  let commas := if x <? 0 then (lenx - 2) ÷ 3 else (lenx - 1) ÷ 3 in
  let lenf := lenx + commas in
  fslice ← make_bytes lenf;
  let i := lenx - 1 in
  let j := lenf - 1 in
  '(fslice, i, j) ← batch_loop (Z.to_nat commas) xslice (fslice, i, j);
  '(fslice, _, _) ← copy_loop (Z.to_nat (i + 1)) xslice (fslice, i, j);
  Some (string_of_bytes fslice).

(** [FormatInt] rounds and then groups. *)
Definition FormatInt (x : Z) (precision : Z) : option string :=
  r ← RoundInt x precision;
  FormatThousands r.

(** [FormatFloat] rounds, groups the integer part and, for a positive
    precision, appends the digits of the fractional part, which it finds
    after the two bytes [0.] or the three bytes [-0.] of its string. *)
Definition FormatFloat (x : float64.t) (precision : Z) : option string :=
  r ← RoundFloat x precision;
  let '(i, f) := math.Modf r in
  istr ← FormatThousands (float64.to_int64 i);
  if precision <=? 0 then Some istr
  else
    let fs := bytes_of_string (strconv.FormatFloat f precision) in
    fs ← (if float64.ltb x float64.zero then slice_from fs 3 else slice_from fs 2);
    Some (String.append istr (String.append "." (string_of_bytes fs))).

(** ** The implementation by scaling *)

Module Scaling.

Import float64.

Definition RoundInt (x : Z) (power : Z) : Z :=
  let power := if power >? 0 then 0 else power in
  let power := wrap64 (- power) in
  let y := of_int x in
  let a := math.Abs y in
  let pow := of_int power in
  let p := math.Pow10 pow in
  let s := div a p in
  let '(_, f) := math.Modf s in
  let r := if leb half f then math.Ceil s else math.Floor s in
  let ar := mul r p in
  to_int64 (math.Copysign ar y).

Definition RoundFloat (x : t) (precision : Z) : t :=
  if precision <? 0 then
    let '(i, _) := math.Modf x in
    of_int (RoundInt (to_int64 i) precision)
  else
    let a := math.Abs x in
    let p := math.Pow10 (of_int precision) in
    let s := mul a p in
    let '(_, f) := math.Modf s in
    let r := if leb half f then math.Ceil s else math.Floor s in
    let ar := div r p in
    math.Copysign ar x.

End Scaling.

(** ** Definitions of the specification *)

(** *** Decimal digit lists *)

Definition is_digit (d : Z) : Prop := 0 <= d <= 9.

(** The value of a list of digits, most significant first, on top of [n]. *)
Definition value_from (n : Z) (ds : list Z) : Z :=
  fold_left (fun a d => a * 10 + d) ds n.

Definition value (ds : list Z) : Z := value_from 0 ds.

Definition to_bytes (ds : list Z) : list byte := strconv.digit_byte <$> ds.

(** Case analysis on a digit. *)
Ltac each_digit d H :=
  let Hc := fresh "Hc" in
  assert (d = 0 \/ d = 1 \/ d = 2 \/ d = 3 \/ d = 4
          \/ d = 5 \/ d = 6 \/ d = 7 \/ d = 8 \/ d = 9) as Hc
    by (unfold is_digit in H; lia);
  destruct Hc as [->|[->|[->|[->|[->|[->|[->|[->|[->| ->]]]]]]]]].

(** Case analysis on the comparisons of the goal. *)
Ltac case_comparisons :=
  repeat match goal with
    | |- context [Z.leb ?a ?b] => destruct (Z.leb_spec a b)
    | |- context [Z.ltb ?a ?b] => destruct (Z.ltb_spec a b)
    | |- context [Z.geb ?a ?b] => destruct (Z.geb_spec a b)
    | |- context [Z.gtb ?a ?b] => destruct (Z.gtb_spec a b)
    end.

(** *** Rounding *)

(** The nearest int64. *)
Definition saturate (v : Z) : Z := Z.max min_int64 (Z.min v max_int64).

(** The multiple of [10^k] nearest to [m >= 0], halves going up. *)
Definition nearest_multiple (m k : Z) : Z := (m + 10 ^ k / 2) / 10 ^ k * 10 ^ k.

(** What [RoundInt] computes for a negative precision. *)
Definition round_int_spec (x precision : Z) : Z :=
  saturate (Z.sgn x * nearest_multiple (Z.abs x) (- precision)).

(** The string of a sign and digits, with the sign of [x]. *)
Definition signed_digits (x : Z) (ds : list Z) : string :=
  string_of_bytes (if x <? 0 then "-"%char :: to_bytes ds else to_bytes ds).

(** The integer that a sign and digits denote. *)
Definition signed_value (x : Z) (ds : list Z) : Z :=
  if x <? 0 then - value ds else value ds.

(** The outcome of [round_digits] for a negative precision: zero, or the
    string of the digits of the nearest multiple of the power of ten. *)
Definition rounds_to (x k : Z) (e : ending) : Prop :=
  (e = Return 0 /\ nearest_multiple (Z.abs x) k = 0)
  \/ (exists ds, e = Convert (signed_digits x ds)
        /\ Forall is_digit ds /\ ds <> []
        /\ value ds = nearest_multiple (Z.abs x) k).

(** [m] has [k] decimal digits, the first of which is [leading_digit m k]. *)
Definition has_digits (m k : Z) : Prop := 10 ^ (k - 1) <= m < 10 ^ k.
Definition leading_digit (m k : Z) : Z := m / 10 ^ (k - 1).

(** *** Grouping by thousands *)

(** The grouping of the specification, on the digits from the least
    significant one: a comma after every three digits that are followed by
    a further digit. *)
Fixpoint group_rev (rs : list byte) : list byte :=
  match rs with
  | a :: b :: c :: ((_ :: _) as rest) => a :: b :: c :: ","%char :: group_rev rest
  | _ => rs
  end.

Definition group_thousands (digits : list byte) : list byte :=
  rev (group_rev (rev digits)).

Definition format_thousands_spec (x : Z) : string :=
  string_of_bytes
    ((if x <? 0 then ["-"%char] else [])
       ++ group_thousands (bytes_of_string (strconv.FormatInt (Z.abs x)))).

(** The commas and groups of three of the batches, for a list whose length
    is a multiple of three. *)
Fixpoint grouped (B : list byte) : list byte :=
  match B with
  | a :: b :: c :: B' => ","%char :: a :: b :: c :: grouped B'
  | _ => []
  end.

(** *** Formatted strings and floats *)

(** The bytes of a formatted number without its commas. *)
Definition remove_commas (b : list byte) : list byte :=
  List.filter (fun c => negb (Ascii.eqb c ","%char)) b.

Definition no_comma (b : list byte) : Prop :=
  Forall (fun c => Ascii.eqb c ","%char = false) b.

(** The exact value of a finite float, as a fraction [n / d] with a
    positive [d]. *)
Definition exact_value (x : float64.t) : option (Z * Z) :=
  match x with
  | S754_zero _ => Some (0, 1)
  | S754_finite s m e =>
      Some (if 0 <=? e then (cond_Zopp s (Z.pos m) * 2 ^ e, 1)
            else (cond_Zopp s (Z.pos m), 2 ^ (- e)))
  | _ => None
  end.

(** The sign bit of a zero or of a finite float. *)
Definition sign_bit (x : float64.t) : option bool :=
  match x with
  | S754_zero s | S754_finite s _ _ => Some s
  | _ => None
  end.

(** A float below one in magnitude, with the sign [s]. *)
Definition fraction (s : bool) (f : float64.t) : Prop :=
  f = S754_zero s
  \/ exists m e, f = S754_finite s m e /\ e < 0 /\ Z.pos m < 2 ^ (- e).

(** ** Digits, [strconv.FormatInt] and [strconv.ParseInt] *)

Lemma byte_digit_digit_byte d : is_digit d ->
  strconv.byte_digit (strconv.digit_byte d) = Some d.
Proof. intros H. each_digit d H; reflexivity. Qed.

Lemma decimalInts_digit_byte d : is_digit d -> decimalInts (strconv.digit_byte d) = d.
Proof. intros H. unfold decimalInts. now rewrite byte_digit_digit_byte. Qed.

Lemma decimalBytes_index d : is_digit d ->
  index decimalBytes d = Some (strconv.digit_byte d).
Proof. intros H. each_digit d H; reflexivity. Qed.

Lemma digit_byte_not_sign d : is_digit d ->
  Ascii.eqb (strconv.digit_byte d) "+" = false
  /\ Ascii.eqb (strconv.digit_byte d) "-" = false.
Proof. intros H. each_digit d H; split; reflexivity. Qed.

Lemma value_from_app n ds es :
  value_from n (ds ++ es) = value_from (value_from n ds) es.
Proof. unfold value_from. apply fold_left_app. Qed.

Lemma value_from_shift n ds :
  value_from n ds = n * 10 ^ len ds + value ds.
Proof.
  unfold value, len. revert n.
  induction ds as [|d ds IH]; intros n; cbn [value_from fold_left length].
  - cbn. lia.
  - fold (value_from (n * 10 + d) ds). fold (value_from (0 * 10 + d) ds).
    rewrite (IH (n * 10 + d)), (IH (0 * 10 + d)).
    rewrite Nat2Z.inj_succ, Z.pow_succ_r by lia. ring.
Qed.

Lemma value_app ds es : value (ds ++ es) = value ds * 10 ^ len es + value es.
Proof. unfold value at 1. rewrite value_from_app. apply value_from_shift. Qed.

Lemma value_snoc ds d : value (ds ++ [d]) = value ds * 10 + d.
Proof. unfold value. rewrite value_from_app. reflexivity. Qed.

Lemma value_cons d ds : value (d :: ds) = d * 10 ^ len ds + value ds.
Proof.
  change (d :: ds) with ([d] ++ ds). rewrite value_app.
  replace (value [d]) with d by (unfold value, value_from; cbn [fold_left]; lia).
  reflexivity.
Qed.

Lemma value_replicate_0 n : value (replicate n 0) = 0.
Proof.
  induction n as [|n IH]; [reflexivity|].
  cbn [replicate]. rewrite value_cons, IH. lia.
Qed.

Lemma value_bounds ds : Forall is_digit ds -> 0 <= value ds < 10 ^ len ds.
Proof.
  induction 1 as [|d ds Hd _ IH].
  - change (0 <= 0 < 1). lia.
  - rewrite value_cons. unfold len in *. cbn [length].
    rewrite Nat2Z.inj_succ, Z.pow_succ_r by lia.
    unfold is_digit in Hd. nia.
Qed.

Lemma to_bytes_app ds es : to_bytes (ds ++ es) = to_bytes ds ++ to_bytes es.
Proof. apply fmap_app. Qed.

Lemma to_bytes_length ds : length (to_bytes ds) = length ds.
Proof. apply length_fmap. Qed.

Lemma len_to_bytes ds : len (to_bytes ds) = len ds.
Proof. unfold len. now rewrite to_bytes_length. Qed.

(** *** strconv.FormatInt *)

Lemma format_bits_spec fuel : forall u acc,
  0 <= u < 10 ^ Z.of_nat (S fuel) ->
  exists ds, strconv.format_bits (S fuel) u acc = to_bytes ds ++ acc
    /\ Forall is_digit ds /\ value ds = u /\ ds <> []
    /\ (0 < u -> 0 < hd 0 ds).
Proof.
  induction fuel as [|fuel IH]; intros u acc Hu.
  - exists [u].
    assert (u / 10 = 0) as Hq by (apply Z.div_small; cbn in Hu; lia).
    assert (u mod 10 = u) as Hr by (apply Z.mod_small; cbn in Hu; lia).
    cbn [strconv.format_bits]. rewrite Hq, Hr. cbn in Hu.
    repeat split; try easy.
    constructor; [unfold is_digit; lia | constructor].
  - cbn [strconv.format_bits].
    pose proof (Z.mod_pos_bound u 10 ltac:(lia)) as Hm.
    pose proof (Z.div_mod u 10 ltac:(lia)) as Hdm.
    destruct (u / 10 =? 0) eqn:Hq.
    + apply Z.eqb_eq in Hq. exists [u mod 10].
      repeat split; try easy.
      * constructor; [unfold is_digit; lia | constructor].
      * unfold value, value_from. cbn [fold_left]. lia.
      * cbn [hd]. lia.
    + apply Z.eqb_neq in Hq.
      assert (0 <= u / 10 < 10 ^ Z.of_nat (S fuel)) as Hu'.
      { rewrite (Nat2Z.inj_succ (S fuel)), Z.pow_succ_r in Hu by lia.
        split; [apply Z.div_pos; lia | apply Z.div_lt_upper_bound; lia]. }
      destruct (IH (u / 10) (strconv.digit_byte (u mod 10) :: acc) Hu')
        as (ds & Heq & Hds & Hv & Hne & Hhd).
      exists (ds ++ [u mod 10]). repeat split.
      * cbn [strconv.format_bits] in Heq.
        rewrite Heq, to_bytes_app, <- app_assoc. reflexivity.
      * apply Forall_app. split; [exact Hds|].
        constructor; [unfold is_digit; lia | constructor].
      * rewrite value_app, Hv. unfold value, value_from, len. cbn. lia.
      * destruct ds; easy.
      * intros _. destruct ds as [|d ds]; [easy|]. cbn [hd app] in *. apply Hhd. lia.
Qed.

Lemma int64_abs_lt x : int64 x -> 0 <= Z.abs x < 10 ^ Z.of_nat 20.
Proof. unfold int64, min_int64, max_int64. intros H. cbn. lia. Qed.

(** The bytes of [strconv.FormatInt x]: an optional sign and the digits of [|x|],
    without leading zero. *)
Lemma FormatInt_bytes x : int64 x ->
  exists ds, bytes_of_string (strconv.FormatInt x)
             = (if x <? 0 then "-"%char :: to_bytes ds else to_bytes ds)
    /\ Forall is_digit ds /\ value ds = Z.abs x /\ ds <> []
    /\ (x <> 0 -> 0 < hd 0 ds).
Proof.
  intros Hx.
  destruct (format_bits_spec 19 (Z.abs x) [] (int64_abs_lt x Hx))
    as (ds & Heq & Hds & Hv & Hne & Hhd).
  exists ds. split; [|split; [exact Hds|split; [exact Hv|split; [exact Hne|]]]].
  - unfold strconv.FormatInt, bytes_of_string, string_of_bytes.
    rewrite list_ascii_of_string_of_list_ascii, Heq, app_nil_r. reflexivity.
  - intros H0. apply Hhd. lia.
Qed.

(** *** strconv.ParseInt *)

Lemma value_from_ge n ds : 0 <= n -> Forall is_digit ds -> n <= value_from n ds.
Proof.
  intros Hn Hds. rewrite value_from_shift.
  pose proof (value_bounds ds Hds).
  assert (1 <= 10 ^ len ds) by (apply Z.pow_le_mono_r with (b := 0); unfold len; lia).
  nia.
Qed.

Lemma parse_uint_loop_spec ds : Forall is_digit ds -> forall n,
  0 <= n <= max_uint64 ->
  strconv.parse_uint_loop (to_bytes ds) n
  = if value_from n ds <=? max_uint64 then (value_from n ds, None)
    else (max_uint64, Some strconv.ErrRange).
Proof.
  induction 1 as [|d ds Hd Hds IH]; intros n Hn.
  - cbn. destruct (Z.leb_spec n max_uint64); [reflexivity | lia].
  - cbn [to_bytes fmap list_fmap strconv.parse_uint_loop].
    rewrite byte_digit_digit_byte by exact Hd.
    change (value_from n (d :: ds)) with (value_from (n * 10 + d) ds).
    unfold is_digit in Hd. unfold max_uint64 in *.
    assert (0 <= n * 10 + d) as Hnd by lia.
    pose proof (value_from_ge (n * 10 + d) ds Hnd Hds) as Hge.
    change (2 ^ 64 - 1) with 18446744073709551615 in *.
    change (18446744073709551615 / 10 + 1) with 1844674407370955162.
    change (2 ^ 64) with 18446744073709551616.
    destruct (Z.geb_spec n 1844674407370955162).
    { destruct (Z.leb_spec (value_from (n * 10 + d) ds) 18446744073709551615);
        [lia | reflexivity]. }
    destruct (Z.le_gt_cases (n * 10 + d) 18446744073709551615) as [Hle|Hgt].
    + rewrite Z.mod_small by lia.
      destruct (Z.ltb_spec (n * 10 + d) (n * 10)); [lia|].
      destruct (Z.gtb_spec (n * 10 + d) 18446744073709551615); [lia|].
      cbn [orb]. fold (to_bytes ds). rewrite IH by lia. reflexivity.
    + replace ((n * 10 + d) mod 18446744073709551616)
        with (n * 10 + d - 18446744073709551616)
        by (apply Z.mod_unique with (q := 1); lia).
      destruct (Z.ltb_spec (n * 10 + d - 18446744073709551616) (n * 10)); [|lia].
      cbn [orb].
      destruct (Z.leb_spec (value_from (n * 10 + d) ds) 18446744073709551615);
        [lia | reflexivity].
Qed.

Lemma ParseUint_spec ds : Forall is_digit ds -> ds <> [] ->
  strconv.ParseUint (to_bytes ds)
  = if value ds <=? max_uint64 then (value ds, None)
    else (max_uint64, Some strconv.ErrRange).
Proof.
  intros Hds Hne. destruct ds as [|d ds]; [easy|].
  change (strconv.ParseUint (to_bytes (d :: ds)))
    with (strconv.parse_uint_loop (to_bytes (d :: ds)) 0).
  rewrite parse_uint_loop_spec by (try exact Hds; unfold max_uint64; lia).
  reflexivity.
Qed.

(** [strconv.ParseInt] on a sign and digits: the value, clamped to the int64
    range, with a range error when it was out of the range. *)
Lemma ParseInt_signed x ds : Forall is_digit ds -> ds <> [] ->
  strconv.ParseInt (signed_digits x ds)
  = (saturate (signed_value x ds),
     if (min_int64 <=? signed_value x ds) && (signed_value x ds <=? max_int64)
     then None else Some strconv.ErrRange).
Proof.
  intros Hds Hne.
  unfold strconv.ParseInt, signed_digits, signed_value, bytes_of_string, string_of_bytes.
  rewrite list_ascii_of_string_of_list_ascii.
  pose proof (value_bounds ds Hds) as [Hv _].
  assert (forall c rest, to_bytes ds = c :: rest ->
          Ascii.eqb c "+" = false /\ Ascii.eqb c "-" = false) as Hsign.
  { intros c rest E. destruct ds as [|d ds]; [easy|].
    apply Forall_inv in Hds. injection E as <- _.
    now apply digit_byte_not_sign. }
  assert (strconv.ParseUint (to_bytes ds)
          = (Z.min (value ds) max_uint64,
             if value ds <=? max_uint64 then None else Some strconv.ErrRange)) as HU.
  { rewrite ParseUint_spec by assumption.
    destruct (Z.leb_spec (value ds) max_uint64); f_equal; lia. }
  unfold saturate, min_int64, max_int64, max_uint64 in *.
  change (2 ^ 63) with 9223372036854775808 in *.
  change (2 ^ 64) with 18446744073709551616 in *.
  destruct (x <? 0).
  - change (Ascii.eqb "-" "+") with false. change (Ascii.eqb "-" "-") with true.
    cbv iota. rewrite HU.
    case_comparisons; cbn [negb andb]; try lia; f_equal; lia.
  - destruct (to_bytes ds) as [|c rest] eqn:E.
    { destruct ds; [easy | discriminate E]. }
    destruct (Hsign c rest eq_refl) as [-> ->]. rewrite HU.
    case_comparisons; cbn [negb andb]; try lia; f_equal; lia.
Qed.

(** *** The loops of RoundInt *)

Lemma store_in_range {A} (s : list A) (i : nat) (v : A) :
  (i < length s)%nat -> store s (Z.of_nat i) v = Some (<[i := v]> s).
Proof.
  intros H. unfold store, len.
  destruct (Z.leb_spec 0 (Z.of_nat i)); [|lia].
  destruct (Z.ltb_spec (Z.of_nat i) (Z.of_nat (length s))); [|lia].
  cbn. now rewrite Nat2Z.id.
Qed.

Lemma index_nat {A} (s : list A) (i : nat) : index s (Z.of_nat i) = s !! i.
Proof.
  unfold index. destruct (Z.ltb_spec (Z.of_nat i) 0); [lia|]. now rewrite Nat2Z.id.
Qed.

Lemma zero_loop_spec n : forall (i : nat) (xs : list byte),
  (i + n = length xs)%nat ->
  zero_loop n (Z.of_nat i) xs = Some (take i xs ++ replicate n "0"%char).
Proof.
  induction n as [|n IH]; intros i xs Hlen.
  - cbn. rewrite take_ge by lia. now rewrite app_nil_r.
  - cbn [zero_loop]. rewrite store_in_range by lia. cbn [mbind option_bind].
    replace (Z.of_nat i + 1) with (Z.of_nat (S i)) by lia.
    rewrite IH by (rewrite length_insert; lia).
    apply (f_equal Some).
    rewrite (take_S_r _ i "0"%char) by (apply list_lookup_insert_eq; lia).
    rewrite take_insert_ge by lia.
    rewrite <- app_assoc. reflexivity.
Qed.

Lemma carry_loop_spec pre : Forall is_digit pre -> forall rest : list byte,
  (carry_loop (length pre) (to_bytes pre ++ rest) = Some (to_bytes pre ++ rest, -1)
   /\ value pre + 1 = 10 ^ len pre)
  \/ (exists pre' (zf : nat),
        carry_loop (length pre) (to_bytes pre ++ rest)
        = Some (to_bytes pre' ++ rest, Z.of_nat zf)
        /\ (1 <= zf <= length pre)%nat /\ length pre' = length pre
        /\ Forall is_digit pre'
        /\ value (take zf pre') * 10 ^ (len pre - Z.of_nat zf) = value pre + 1).
Proof.
  induction pre as [|d pre IH] using rev_ind; intros Hds rest.
  - left. split; reflexivity.
  - apply Forall_app in Hds as [Hpre Hd]. apply Forall_inv in Hd.
    rewrite length_app, Nat.add_1_r. cbn [carry_loop].
    rewrite to_bytes_app, <- app_assoc. cbn [to_bytes fmap list_fmap app].
    fold (to_bytes pre).
    rewrite index_nat, list_lookup_middle by (now rewrite to_bytes_length).
    cbn [mbind option_bind]. rewrite decimalInts_digit_byte by exact Hd.
    assert (len (pre ++ [d]) = len pre + 1) as Hlen
      by (unfold len; rewrite length_app; cbn; lia).
    destruct (Z.ltb_spec d 9) as [Hlt|Hge].
    + right. exists (pre ++ [d + 1]), (S (length pre)).
      assert (is_digit (d + 1)) as Hd1 by (unfold is_digit in *; lia).
      rewrite decimalBytes_index by exact Hd1. cbn [mbind option_bind].
      rewrite store_in_range
        by (rewrite length_app, to_bytes_length; cbn [length]; lia).
      cbn [mbind option_bind].
      rewrite insert_app_r_alt by (rewrite to_bytes_length; lia).
      rewrite to_bytes_length, Nat.sub_diag. cbn [insert list_insert].
      repeat split.
      * rewrite to_bytes_app, <- app_assoc. reflexivity.
      * lia.
      * lia.
      * rewrite length_app. cbn [length]. lia.
      * apply Forall_app. split; [exact Hpre|]. constructor; [exact Hd1|constructor].
      * rewrite take_ge by (rewrite length_app; cbn [length]; lia).
        rewrite Hlen, !value_snoc.
        replace (len pre + 1 - Z.of_nat (S (length pre))) with 0 by (unfold len; lia).
        lia.
    + assert (d = 9) as -> by (unfold is_digit in Hd; lia).
      destruct (IH Hpre (strconv.digit_byte 9 :: rest))
        as [[Heq Hv]|(pre' & zf & Heq & Hzf & Hl' & Hds' & Hv)].
      * left. split; [exact Heq|].
        rewrite Hlen, value_snoc, Z.pow_add_r by (unfold len; lia). lia.
      * right. exists (pre' ++ [9]), zf. repeat split.
        -- rewrite Heq, to_bytes_app, <- app_assoc. reflexivity.
        -- lia.
        -- lia.
        -- rewrite length_app. cbn [length]. lia.
        -- apply Forall_app. split; [exact Hds'|].
           constructor; [exact Hd|constructor].
        -- rewrite take_app_le by lia.
           rewrite Hlen, value_snoc.
           replace (len pre + 1 - Z.of_nat zf) with (len pre - Z.of_nat zf + 1)
             by lia.
           rewrite Z.pow_add_r by (unfold len; lia). lia.
Qed.

(** The string made for the digits [ds], zeroed from [zf]. *)
Lemma round_string_spec x ds (zf : nat) :
  Forall is_digit ds -> (zf <= length ds)%nat ->
  round_string x (to_bytes ds) (Z.of_nat zf)
  = Some (Convert (signed_digits x (take zf ds ++ replicate (length ds - zf) 0))).
Proof.
  intros Hds Hzf. unfold round_string, signed_digits.
  rewrite len_to_bytes.
  replace (Z.to_nat (len ds - Z.of_nat zf)) with (length ds - zf)%nat
    by (unfold len; lia).
  rewrite zero_loop_spec by (rewrite to_bytes_length; lia).
  cbn [mbind option_bind].
  assert (take zf (to_bytes ds) ++ replicate (length ds - zf) "0"%char
          = to_bytes (take zf ds ++ replicate (length ds - zf) 0)) as ->.
  { unfold to_bytes. rewrite fmap_app, fmap_take, fmap_replicate. reflexivity. }
  reflexivity.
Qed.

Lemma zeroed_digits ds (zf : nat) : Forall is_digit ds -> (zf <= length ds)%nat ->
  Forall is_digit (take zf ds ++ replicate (length ds - zf) 0)
  /\ value (take zf ds ++ replicate (length ds - zf) 0)
     = value (take zf ds) * 10 ^ (len ds - Z.of_nat zf)
  /\ (ds <> [] -> take zf ds ++ replicate (length ds - zf) 0 <> []).
Proof.
  intros Hds Hzf. split; [|split].
  - apply Forall_app. split; [now apply Forall_take|].
    apply Forall_replicate. unfold is_digit. lia.
  - rewrite value_app, value_replicate_0.
    replace (len (replicate (length ds - zf) 0)) with (len ds - Z.of_nat zf)
      by (unfold len; rewrite length_replicate; lia).
    lia.
  - intros Hne E. apply (f_equal length) in E.
    rewrite length_app, length_take, length_replicate in E.
    destruct ds; [easy|]. cbn [length] in *. lia.
Qed.

(** ** The arithmetic reading of RoundInt *)

Lemma pow10_split k : 1 <= k ->
  10 ^ k = 10 * 10 ^ (k - 1) /\ 10 ^ k / 2 = 5 * 10 ^ (k - 1) /\ 0 < 10 ^ (k - 1).
Proof.
  intros Hk.
  assert (10 ^ k = 10 * 10 ^ (k - 1)) as E.
  { replace k with (Z.succ (k - 1)) at 1 by lia. apply Z.pow_succ_r. lia. }
  assert (0 < 10 ^ (k - 1)) by (apply Z.pow_pos_nonneg; lia).
  repeat split; try assumption.
  rewrite E. replace (10 * 10 ^ (k - 1)) with (5 * 10 ^ (k - 1) * 2) by ring.
  apply Z.div_mul. lia.
Qed.

Lemma nearest_multiple_down q r k : 1 <= k ->
  0 <= r < 5 * 10 ^ (k - 1) ->
  nearest_multiple (q * 10 ^ k + r) k = q * 10 ^ k.
Proof.
  intros Hk Hr. unfold nearest_multiple.
  destruct (pow10_split k Hk) as (E & E2 & HP). rewrite E2, E.
  f_equal. symmetry.
  apply Z.div_unique with (r := r + 5 * 10 ^ (k - 1)); lia.
Qed.

Lemma nearest_multiple_up q r k : 1 <= k ->
  5 * 10 ^ (k - 1) <= r < 10 ^ k ->
  nearest_multiple (q * 10 ^ k + r) k = (q + 1) * 10 ^ k.
Proof.
  intros Hk Hr. unfold nearest_multiple.
  destruct (pow10_split k Hk) as (E & E2 & HP). rewrite E2, E in *.
  f_equal. symmetry.
  apply Z.div_unique with (r := r - 5 * 10 ^ (k - 1)); lia.
Qed.

Lemma sign_nearest_multiple x k : 1 <= k ->
  (if x <? 0 then -1 else 1) * nearest_multiple (Z.abs x) k
  = Z.sgn x * nearest_multiple (Z.abs x) k.
Proof.
  intros Hk. destruct (Z.ltb_spec x 0) as [Hx|Hx].
  - rewrite Z.sgn_neg by exact Hx. reflexivity.
  - destruct (Z.eq_dec x 0) as [->|Hx0].
    + change (Z.abs 0) with (0 * 10 ^ k + 0).
      rewrite nearest_multiple_down; [lia | lia |].
      destruct (pow10_split k Hk) as (_ & _ & HP). lia.
    + rewrite Z.sgn_pos by lia. reflexivity.
Qed.

Lemma slice_from_1 {A} (c : A) (l : list A) : slice_from (c :: l) 1 = Some l.
Proof.
  unfold slice_from, len. cbn [length].
  destruct (Z.leb_spec 1 (Z.of_nat (S (length l)))); [reflexivity | lia].
Qed.

Lemma len_app {A} (l1 l2 : list A) : len (l1 ++ l2) = len l1 + len l2.
Proof. unfold len. rewrite length_app. lia. Qed.

Lemma len_cons {A} (a : A) (l : list A) : len (a :: l) = len l + 1.
Proof. unfold len. cbn [length]. lia. Qed.

Lemma len_nonneg {A} (l : list A) : 0 <= len l.
Proof. unfold len. lia. Qed.

Lemma rounds_to_string x k ds (zf : nat) v :
  Forall is_digit ds -> (zf <= length ds)%nat -> ds <> [] ->
  value (take zf ds) * 10 ^ (len ds - Z.of_nat zf) = v ->
  nearest_multiple (Z.abs x) k = v ->
  exists e, round_string x (to_bytes ds) (Z.of_nat zf) = Some e /\ rounds_to x k e.
Proof.
  intros Hds Hzf Hne Hv Hnm.
  destruct (zeroed_digits ds zf Hds Hzf) as (Hds' & Hval & Hne').
  eexists. split; [now apply round_string_spec|].
  right. eexists. split; [reflexivity|].
  split; [exact Hds'|]. split; [now apply Hne'|]. congruence.
Qed.

(** With a leading one and zeros from index one: the next power of ten. *)
Lemma rounds_to_leading_one x k ds : Forall is_digit ds ->
  nearest_multiple (Z.abs x) k = 10 ^ len ds ->
  exists e, round_string x ("1"%char :: to_bytes ds) 1 = Some e /\ rounds_to x k e.
Proof.
  intros Hds Hnm.
  change ("1"%char :: to_bytes ds) with (to_bytes (1 :: ds)).
  change 1 with (Z.of_nat 1) at 2.
  apply rounds_to_string with (v := 10 ^ len ds).
  - constructor; [unfold is_digit; lia | exact Hds].
  - cbn [length]. lia.
  - easy.
  - cbn [take]. rewrite take_0, len_cons. change (value [1]) with 1.
    replace (len ds + 1 - Z.of_nat 1) with (len ds) by lia. lia.
  - exact Hnm.
Qed.

Lemma bind_some {A B} (f : A -> option B) (a : A) : Some a ≫= f = f a.
Proof. reflexivity. Qed.

(** The digits that [RoundInt] converts, for a negative precision, are those
    of the multiple of the power of ten nearest to the magnitude of [x],
    halves going up. *)
Theorem round_digits_arith x precision : int64 x -> precision < 0 ->
  exists e, round_digits x precision = Some e /\ rounds_to x (- precision) e.
Proof.
  intros Hx Hp. unfold round_digits. cbv zeta.
  destruct (Z.gtb_spec precision (-1)); [lia|].
  destruct (FormatInt_bytes x Hx) as (ds & Hb & Hds & Hv & Hne & Hhd).
  assert ((if x <? 0 then slice_from (bytes_of_string (strconv.FormatInt x)) 1
           else Some (bytes_of_string (strconv.FormatInt x))) = Some (to_bytes ds)) as ->.
  { rewrite Hb. destruct (x <? 0); [apply slice_from_1 | reflexivity]. }
  rewrite bind_some, len_to_bytes.
  pose proof (value_bounds ds Hds) as Hvb. rewrite Hv in Hvb.
  pose proof (len_nonneg ds) as Hlen0.
  set (k := - precision) in *. assert (1 <= k) as Hk by lia.
  replace precision with (- k) by lia. clearbody k. clear Hp H precision.
  destruct (pow10_split k Hk) as (E & E2 & HP).
  destruct (Z.ltb_spec (len ds + - k) 0) as [Hrf|Hrf].
  { (* rounding to more than one order of magnitude above x *)
    eexists. split; [reflexivity|]. left. split; [reflexivity|].
    replace (Z.abs x) with (0 * 10 ^ k + Z.abs x) by lia.
    rewrite nearest_multiple_down; [lia | lia |].
    assert (10 ^ len ds <= 10 ^ (k - 1)) by (apply Z.pow_le_mono_r; lia). lia. }
  destruct (Z.eqb_spec (len ds + - k) 0) as [Hrf0|Hrf0].
  { (* rounding to one order of magnitude above x *)
    destruct ds as [|d0 ds']; [easy|].
    apply Forall_cons in Hds as Hds2. destruct Hds2 as [Hd0 Hds'].
    cbn [to_bytes fmap list_fmap]. fold (to_bytes ds').
    change (index (strconv.digit_byte d0 :: to_bytes ds') 0)
      with (Some (strconv.digit_byte d0)).
    rewrite bind_some, decimalInts_digit_byte by exact Hd0.
    rewrite value_cons in Hv. rewrite len_cons in *.
    pose proof (value_bounds ds' Hds') as Hvb'.
    assert (len ds' = k - 1) as Hl by lia. rewrite Hl in *.
    unfold is_digit in Hd0.
    destruct (Z.ltb_spec d0 5) as [Hd5|Hd5].
    - eexists. split; [reflexivity|]. left. split; [reflexivity|].
      replace (Z.abs x) with (0 * 10 ^ k + Z.abs x) by lia.
      rewrite nearest_multiple_down; [lia | lia | nia].
    - change (strconv.digit_byte d0 :: to_bytes ds') with (to_bytes (d0 :: ds')).
      apply rounds_to_leading_one; [exact Hds|].
      rewrite len_cons, Hl. replace (k - 1 + 1) with k by lia.
      replace (Z.abs x) with (0 * 10 ^ k + Z.abs x) by lia.
      rewrite nearest_multiple_up; [lia | lia | nia]. }
  (* rounding inside x *)
  set (rf := Z.to_nat (len ds + - k)).
  assert (rf < length ds)%nat as Hrfl by (unfold rf, len in *; lia).
  destruct (lookup_lt_is_Some_2 ds rf Hrfl) as [rd Hrd].
  assert (index (to_bytes ds) (len ds + - k) = Some (strconv.digit_byte rd)) as ->.
  { unfold index. destruct (Z.ltb_spec (len ds + - k) 0); [lia|].
    fold rf. unfold to_bytes. rewrite list_lookup_fmap, Hrd. reflexivity. }
  rewrite bind_some.
  pose proof (take_drop_middle ds rf rd Hrd) as Hsplit.
  set (pre := take rf ds) in *. set (post := drop (S rf) ds) in *.
  assert (length pre = rf) as Hpre by (unfold pre; rewrite length_take; lia).
  assert (len ds + - k = Z.of_nat (length pre)) as Hrfz by (unfold rf in *; lia).
  rewrite Hrfz. clearbody pre post. subst ds. clear Hrd Hrfl.
  apply Forall_app in Hds as Hds2. destruct Hds2 as [Hdpre Hds2].
  apply Forall_cons in Hds2 as [Hrdd Hdpost].
  rewrite decimalInts_digit_byte by exact Hrdd.
  rewrite len_app, len_cons in *.
  assert (len post = k - 1) as Hpost by (unfold len in *; lia).
  rewrite value_app, value_cons, len_cons, Hpost in Hv.
  replace (k - 1 + 1) with k in Hv by lia.
  pose proof (value_bounds post Hdpost) as Hvpost. rewrite Hpost in Hvpost.
  pose proof (value_bounds pre Hdpre) as Hvpre.
  unfold is_digit in Hrdd.
  destruct (Z.ltb_spec rd 5) as [Hrd5|Hrd5].
  - (* truncate *)
    apply rounds_to_string with (v := value pre * 10 ^ k);
      [assumption | rewrite length_app; lia | assumption | |].
    + rewrite take_app_length, len_app, len_cons, Hpost.
      replace (len pre + (k - 1 + 1) - Z.of_nat (length pre)) with k
        by (unfold len; lia).
      reflexivity.
    + rewrite <- Hv, nearest_multiple_down; [reflexivity | lia | nia].
  - (* carry *)
    rewrite to_bytes_app, <- Hpre.
    destruct (carry_loop_spec pre Hdpre (to_bytes (rd :: post)))
      as [[Heq Hall]|(pre' & zf & Heq & Hzf & Hl' & Hds' & Hval)];
      rewrite Heq, bind_some; cbv beta iota.
    + change (-1 =? -1) with true. cbv iota.
      rewrite <- to_bytes_app.
      apply rounds_to_leading_one; [assumption|].
      rewrite len_app, len_cons, Hpost.
      rewrite <- Hv, nearest_multiple_up; [| lia | nia].
      rewrite Hall. replace (len pre + (k - 1 + 1)) with (len pre + k) by lia.
      rewrite Z.pow_add_r by lia. reflexivity.
    + destruct (Z.eqb_spec (Z.of_nat zf) (-1)); [lia|].
      rewrite <- to_bytes_app.
      apply rounds_to_string with (v := (value pre + 1) * 10 ^ k).
      * apply Forall_app. split; [assumption|]. constructor; assumption.
      * rewrite length_app. lia.
      * destruct pre'; easy.
      * rewrite take_app_le by lia.
        rewrite len_app, len_cons, Hpost.
        replace (len pre' + (k - 1 + 1) - Z.of_nat zf)
          with (len pre - Z.of_nat zf + k) by (unfold len; lia).
        rewrite Z.pow_add_r by (unfold len; lia).
        rewrite <- Hval. ring.
      * rewrite <- Hv, nearest_multiple_up; [reflexivity | lia | nia].
Qed.

Lemma signed_value_sgn x k ds : 1 <= k ->
  value ds = nearest_multiple (Z.abs x) k ->
  signed_value x ds = Z.sgn x * nearest_multiple (Z.abs x) k.
Proof.
  intros Hk Hv. unfold signed_value. rewrite Hv.
  rewrite <- (sign_nearest_multiple x k Hk). destruct (x <? 0); lia.
Qed.

(** [RoundInt] with a negative precision rounds the magnitude of [x] to the
    nearest multiple of the power of ten, halves going up, puts the sign
    back and keeps the result in the int64 range. *)
Theorem RoundInt_arith x precision : int64 x -> precision < 0 ->
  RoundInt x precision = Some (round_int_spec x precision).
Proof.
  intros Hx Hp. unfold RoundInt, round_int_spec.
  destruct (round_digits_arith x precision Hx Hp)
    as (e & -> & [[-> Hnm]|(ds & -> & Hds & Hne & Hv)]).
  - rewrite Hnm, Z.mul_0_r. reflexivity.
  - rewrite bind_some. unfold convert.
    rewrite (ParseInt_signed x ds Hds Hne).
    rewrite (signed_value_sgn x (- precision) ds) by (assumption || lia).
    reflexivity.
Qed.

(** ** FormatThousands *)

Lemma split_last {A} n (l : list A) : length l = S n ->
  exists l' a, l = l' ++ [a] /\ length l' = n.
Proof.
  intros H. destruct l as [|a l] using rev_ind; [easy|].
  exists l, a. rewrite length_app in H. cbn in H. split; [reflexivity | lia].
Qed.

Lemma copy_loop_spec M : forall U C P1 P2 G : list byte,
  length P2 = length M ->
  copy_loop (length M) (U ++ M ++ C)
    (P1 ++ P2 ++ G, len (U ++ M) - 1, len (P1 ++ P2) - 1)
  = Some (P1 ++ M ++ G, len U - 1, len P1 - 1).
Proof.
  induction M as [|m M IH] using rev_ind; intros U C P1 P2 G HP.
  - destruct P2; [|easy]. cbn [copy_loop length app]. now rewrite !app_nil_r.
  - rewrite length_app, Nat.add_1_r in *.
    destruct (split_last _ _ HP) as (P2' & p & -> & HP').
    cbn [copy_loop copy_step].
    assert (index (U ++ (M ++ [m]) ++ C) (len (U ++ M ++ [m]) - 1) = Some m) as ->.
    { replace (len (U ++ M ++ [m]) - 1) with (Z.of_nat (length (U ++ M)))
        by (unfold len; rewrite !length_app; cbn [length]; lia).
      rewrite index_nat. rewrite <- (app_assoc M), (app_assoc U).
      now apply list_lookup_middle. }
    cbn [mbind option_bind].
    assert (store (P1 ++ (P2' ++ [p]) ++ G) (len (P1 ++ P2' ++ [p]) - 1) m
            = Some (P1 ++ P2' ++ m :: G)) as ->.
    { replace (len (P1 ++ P2' ++ [p]) - 1) with (Z.of_nat (length (P1 ++ P2')))
        by (unfold len; rewrite !length_app; cbn [length]; lia).
      rewrite store_in_range by (rewrite !length_app; cbn [length]; lia).
      rewrite <- (app_assoc P2'), (app_assoc P1).
      rewrite insert_app_r_alt by lia. rewrite Nat.sub_diag.
      cbn [insert list_insert app]. now rewrite <- app_assoc. }
    cbn [mbind option_bind].
    replace (len (U ++ M ++ [m]) - 1 - 1) with (len (U ++ M) - 1)
      by (unfold len; rewrite !length_app; cbn [length]; lia).
    replace (len (P1 ++ P2' ++ [p]) - 1 - 1) with (len (P1 ++ P2') - 1)
      by (unfold len; rewrite !length_app; cbn [length]; lia).
    rewrite <- (app_assoc M). cbn [app].
    rewrite (IH U (m :: C) P1 P2' (m :: G) HP').
    now rewrite <- app_assoc.
Qed.

Lemma batch_step_spec (a b c p0 p1 p2 p3 : byte) (U C P1 G : list byte) :
  batch_step (U ++ [a; b; c] ++ C)
    (P1 ++ [p0; p1; p2; p3] ++ G, len (U ++ [a; b; c]) - 1,
     len (P1 ++ [p0; p1; p2; p3]) - 1)
  = Some (P1 ++ [","%char; a; b; c] ++ G, len U - 1, len P1 - 1).
Proof.
  unfold batch_step.
  pose proof (copy_loop_spec [a; b; c] U C (P1 ++ [p0]) [p1; p2; p3] G eq_refl) as H.
  cbn [length] in H. rewrite <- !app_assoc in H. cbn [app] in *.
  rewrite H. cbn [mbind option_bind].
  replace (len (P1 ++ [p0]) - 1) with (Z.of_nat (length P1))
    by (unfold len; rewrite length_app; cbn [length]; lia).
  rewrite store_in_range by (rewrite !length_app; cbn [length]; lia).
  cbn [mbind option_bind].
  rewrite insert_app_r_alt by lia. rewrite Nat.sub_diag.
  cbn [insert list_insert].
  replace (Z.of_nat (length P1) - 1) with (len P1 - 1) by reflexivity.
  reflexivity.
Qed.

Lemma split_last3 {A} n (l : list A) : length l = (n + 3)%nat ->
  exists l' a b c, l = l' ++ [a; b; c] /\ length l' = n.
Proof.
  intros H.
  destruct (split_last (n + 2) l ltac:(lia)) as (l2 & c & -> & H2).
  destruct (split_last (n + 1) l2 ltac:(lia)) as (l1 & b & -> & H1).
  destruct (split_last n l1 ltac:(lia)) as (l0 & a & -> & H0).
  exists l0, a, b, c. rewrite <- !app_assoc. split; [reflexivity | exact H0].
Qed.

Lemma grouped_app3 t : forall (B : list byte) a b c,
  length B = (3 * t)%nat ->
  grouped (B ++ [a; b; c]) = grouped B ++ [","%char; a; b; c].
Proof.
  induction t as [|t IH]; intros B a b c HB.
  - destruct B; [reflexivity | easy].
  - destruct B as [|x [|y [|z B]]]; try (cbn in HB; lia).
    cbn [grouped app]. rewrite IH by (cbn [length] in HB; lia). reflexivity.
Qed.

Lemma batch_loop_spec t : forall B U C P1 P2 G : list byte,
  length B = (3 * t)%nat -> length P2 = (4 * t)%nat ->
  batch_loop t (U ++ B ++ C)
    (P1 ++ P2 ++ G, len (U ++ B) - 1, len (P1 ++ P2) - 1)
  = Some (P1 ++ grouped B ++ G, len U - 1, len P1 - 1).
Proof.
  induction t as [|t IH]; intros B U C P1 P2 G HB HP.
  - destruct B; [|easy]. destruct P2; [|easy].
    cbn [batch_loop grouped app]. now rewrite !app_nil_r.
  - destruct (split_last3 (3 * t) B ltac:(lia)) as (B' & a & b & c & -> & HB').
    destruct (split_last3 (4 * t + 1) P2 ltac:(lia)) as (P2' & p1 & p2 & p3 & -> & HP2).
    destruct (split_last (4 * t) P2' ltac:(lia)) as (P2'' & p0 & -> & HP'').
    cbn [batch_loop].
    replace (U ++ (B' ++ [a; b; c]) ++ C) with ((U ++ B') ++ [a; b; c] ++ C)
      by (now rewrite <- !app_assoc).
    replace (P1 ++ ((P2'' ++ [p0]) ++ [p1; p2; p3]) ++ G)
      with ((P1 ++ P2'') ++ [p0; p1; p2; p3] ++ G)
      by (now rewrite <- !app_assoc).
    replace (U ++ B' ++ [a; b; c]) with ((U ++ B') ++ [a; b; c])
      by (now rewrite <- !app_assoc).
    replace (P1 ++ (P2'' ++ [p0]) ++ [p1; p2; p3])
      with ((P1 ++ P2'') ++ [p0; p1; p2; p3])
      by (now rewrite <- !app_assoc).
    rewrite batch_step_spec. cbn [mbind option_bind].
    rewrite <- !(app_assoc U), <- !(app_assoc P1).
    rewrite (IH B' U ([a; b; c] ++ C) P1 P2'' ([","%char; a; b; c] ++ G) HB' HP'').
    rewrite (grouped_app3 t) by exact HB'.
    now rewrite <- !app_assoc.
Qed.

Lemma group_rev_short (l : list byte) : (length l <= 3)%nat -> group_rev l = l.
Proof.
  destruct l as [|a [|b [|c [|d l]]]]; cbn [length]; try reflexivity. lia.
Qed.

Lemma group_rev_more (a b c r : byte) (rest : list byte) :
  group_rev (a :: b :: c :: r :: rest)
  = a :: b :: c :: ","%char :: group_rev (r :: rest).
Proof. reflexivity. Qed.

Lemma group_thousands_spec t : forall A B : list byte,
  length B = (3 * t)%nat -> (1 <= length A <= 3)%nat ->
  group_thousands (A ++ B) = A ++ grouped B.
Proof.
  unfold group_thousands.
  induction t as [|t IH]; intros A B HB HA.
  - destruct B; [|easy]. rewrite !app_nil_r.
    rewrite group_rev_short by (rewrite length_rev; lia). apply rev_involutive.
  - destruct (split_last3 (3 * t) B ltac:(lia)) as (B' & a & b & c & -> & HB').
    rewrite (grouped_app3 t) by exact HB'.
    rewrite app_assoc, rev_app_distr. cbn [rev app].
    destruct (rev (A ++ B')) as [|r rest] eqn:Hr.
    { apply (f_equal length) in Hr. rewrite length_rev, length_app in Hr.
      cbn [length] in Hr. lia. }
    rewrite group_rev_more, <- Hr.
    cbn [rev]. rewrite IH by assumption.
    now rewrite <- !app_assoc.
Qed.

(** The two loops of [FormatThousands] on a slice [U ++ B], with [t] commas
    and [B] the [3 * t] digits they separate. *)
Lemma thousands_loops (U B : list byte) (t : nat) :
  length B = (3 * t)%nat ->
  ('(fslice, i, j) ← batch_loop t (U ++ B)
       (replicate (length (U ++ B) + t) Ascii.zero, len (U ++ B) - 1,
        len (U ++ B) + Z.of_nat t - 1);
   '(fslice, _, _) ← copy_loop (Z.to_nat (i + 1)) (U ++ B) (fslice, i, j);
   Some (string_of_bytes fslice))
  = Some (string_of_bytes (U ++ grouped B)).
Proof.
  intros HB.
  set (P1 := replicate (length U) Ascii.zero).
  set (P2 := replicate (4 * t) Ascii.zero).
  assert (length P1 = length U) as HP1 by apply length_replicate.
  assert (length P2 = (4 * t)%nat) as HP2 by apply length_replicate.
  assert (replicate (length (U ++ B) + t) Ascii.zero = P1 ++ P2 ++ []) as ->.
  { rewrite app_nil_r. unfold P1, P2. rewrite <- replicate_add.
    f_equal. rewrite length_app. lia. }
  assert (len (U ++ B) + Z.of_nat t - 1 = len (P1 ++ P2) - 1) as ->
    by (unfold len; rewrite !length_app; lia).
  pose proof (batch_loop_spec t B U [] P1 P2 [] HB HP2) as H.
  rewrite !app_nil_r in *. rewrite H. cbn [mbind option_bind].
  replace (Z.to_nat (len U - 1 + 1)) with (length U) by (unfold len; lia).
  pose proof (copy_loop_spec U [] B [] P1 (grouped B) HP1) as H'.
  cbn [app] in H'. rewrite H'. reflexivity.
Qed.

Lemma FormatInt_abs_bytes x :
  bytes_of_string (strconv.FormatInt x)
  = (if x <? 0 then ["-"%char] else []) ++ bytes_of_string (strconv.FormatInt (Z.abs x)).
Proof.
  unfold strconv.FormatInt, bytes_of_string, string_of_bytes.
  rewrite !list_ascii_of_string_of_list_ascii, Z.abs_idemp.
  destruct (Z.ltb_spec (Z.abs x) 0); [lia|].
  destruct (x <? 0); reflexivity.
Qed.

(** [FormatThousands] computes the grouping of the specification. *)
Lemma FormatThousands_spec x : int64 x ->
  FormatThousands x = Some (format_thousands_spec x).
Proof.
  intros Hx. unfold FormatThousands, format_thousands_spec. cbv zeta.
  rewrite (FormatInt_abs_bytes x).
  set (D := bytes_of_string (strconv.FormatInt (Z.abs x))).
  assert (1 <= length D)%nat as HD.
  { assert (int64 (Z.abs x) \/ Z.abs x = 2 ^ 63) as Habs
      by (unfold int64, min_int64, max_int64 in *; lia).
    unfold D, strconv.FormatInt, bytes_of_string, string_of_bytes.
    rewrite list_ascii_of_string_of_list_ascii, Z.abs_idemp.
    destruct (Z.ltb_spec (Z.abs x) 0); [lia|].
    destruct (format_bits_spec 19 (Z.abs x) [] (int64_abs_lt x Hx))
      as (ds & -> & _ & _ & Hne & _).
    rewrite app_nil_r, to_bytes_length. destruct ds; [easy | cbn; lia]. }
  set (sign := if x <? 0 then ["-"%char] else []).
  set (n := Z.of_nat (length D)).
  set (t := Z.to_nat ((n - 1) / 3)).
  assert (0 <= (n - 1) / 3) as Ht0 by (apply Z.div_pos; lia).
  pose proof (Z.mul_div_le (n - 1) 3 ltac:(lia)) as Ht1.
  pose proof (Z.mod_pos_bound (n - 1) 3 ltac:(lia)) as Ht2.
  pose proof (Z.div_mod (n - 1) 3 ltac:(lia)) as Ht3.
  assert ((if x <? 0 then (len (sign ++ D) - 2) ÷ 3 else (len (sign ++ D) - 1) ÷ 3)
          = Z.of_nat t) as ->.
  { unfold sign, len. destruct (x <? 0); rewrite length_app; cbn [length];
      rewrite Z.quot_div_nonneg by lia; unfold t; rewrite Z2Nat.id by lia;
      f_equal; lia. }
  unfold make_bytes.
  destruct (Z.ltb_spec (len (sign ++ D) + Z.of_nat t) 0) as [Hneg|_];
    [unfold len in Hneg; lia|].
  cbn [mbind option_bind].
  set (A := take (length D - 3 * t) D). set (B := drop (length D - 3 * t) D).
  assert (D = A ++ B) as HAB by (symmetry; apply take_drop).
  assert (length B = (3 * t)%nat) as HB by (unfold B; rewrite length_drop; lia).
  assert (1 <= length A <= 3)%nat as HA by (unfold A; rewrite length_take; lia).
  clearbody A B D. subst D.
  replace (Z.to_nat (len (sign ++ A ++ B) + Z.of_nat t))
    with (length ((sign ++ A) ++ B) + t)%nat
    by (unfold len; rewrite <- app_assoc; lia).
  rewrite (app_assoc sign A B), Nat2Z.id.
  rewrite (thousands_loops (sign ++ A) B t HB).
  rewrite (group_thousands_spec t A B HB HA).
  now rewrite <- app_assoc.
Qed.

(** ** Saturation and the nearest multiple *)

Lemma saturate_int64 v : int64 (saturate v).
Proof. unfold int64, saturate, min_int64, max_int64. lia. Qed.

Lemma saturate_id v : int64 v -> saturate v = v.
Proof. unfold int64, saturate, min_int64, max_int64. lia. Qed.

Lemma nearest_multiple_quotient m k : 0 <= m -> 1 <= k ->
  exists q, 0 <= q /\ nearest_multiple m k = q * 10 ^ k.
Proof.
  intros Hm Hk. destruct (pow10_split k Hk) as (E & E2 & HP).
  exists ((m + 10 ^ k / 2) / 10 ^ k). split; [|reflexivity].
  apply Z.div_pos; lia.
Qed.

Lemma nearest_multiple_mono m m' k : 1 <= k -> m <= m' ->
  nearest_multiple m k <= nearest_multiple m' k.
Proof.
  intros Hk Hm. destruct (pow10_split k Hk) as (E & E2 & HP).
  unfold nearest_multiple. apply Z.mul_le_mono_nonneg_r; [lia|].
  apply Z.div_le_mono; lia.
Qed.

Lemma nearest_multiple_fixed q k : 1 <= k ->
  nearest_multiple (q * 10 ^ k) k = q * 10 ^ k.
Proof.
  intros Hk. destruct (pow10_split k Hk) as (E & E2 & HP).
  rewrite <- (Z.add_0_r (q * 10 ^ k)) at 1.
  apply nearest_multiple_down; lia.
Qed.

Lemma saturate_cases v :
  (int64 v /\ saturate v = v)
  \/ (max_int64 < v /\ saturate v = max_int64)
  \/ (v < min_int64 /\ saturate v = min_int64).
Proof. unfold int64, saturate, min_int64, max_int64. lia. Qed.

Lemma round_int_spec_fixed x precision : int64 x -> precision < 0 ->
  round_int_spec (round_int_spec x precision) precision = round_int_spec x precision.
Proof.
  intros Hx Hp. unfold round_int_spec.
  set (k := - precision). assert (1 <= k) as Hk by lia.
  destruct (nearest_multiple_quotient (Z.abs x) k ltac:(lia) Hk) as (q & Hq & HN).
  destruct (pow10_split k Hk) as (E & E2 & HP).
  pose proof (nearest_multiple_fixed q k Hk) as Hfix.
  pose proof (nearest_multiple_mono (Z.abs x) (2 ^ 63 - 1) k Hk) as Hmax.
  pose proof (nearest_multiple_mono (Z.abs x) (2 ^ 63) k Hk) as Hmin.
  rewrite HN in Hmax, Hmin. rewrite HN.
  assert (0 <= q * 10 ^ k) as HN0 by nia.
  set (N := q * 10 ^ k) in *. clearbody N.
  unfold int64, min_int64, max_int64 in Hx.
  destruct (Z.lt_trichotomy x 0) as [Hneg|[->|Hpos]].
  - rewrite (Z.sgn_neg x) by exact Hneg.
    destruct (saturate_cases (-1 * N)) as [[Hin ->]|[[Hhi ->]|[Hlo ->]]].
    + destruct (Z.eq_dec N 0) as [->|HN1]; [reflexivity|].
      rewrite Z.sgn_neg by lia.
      replace (Z.abs (-1 * N)) with N by lia. rewrite Hfix.
      now apply saturate_id.
    + unfold max_int64 in Hhi. lia.
    + change (Z.sgn min_int64) with (-1). change (Z.abs min_int64) with (2 ^ 63).
      unfold saturate, min_int64, max_int64 in *. lia.
  - reflexivity.
  - rewrite (Z.sgn_pos x) by exact Hpos.
    destruct (saturate_cases (1 * N)) as [[Hin ->]|[[Hhi ->]|[Hlo ->]]].
    + destruct (Z.eq_dec N 0) as [->|HN1]; [reflexivity|].
      rewrite Z.sgn_pos by lia.
      replace (Z.abs (1 * N)) with N by lia. rewrite Hfix.
      now apply saturate_id.
    + change (Z.sgn max_int64) with 1. change (Z.abs max_int64) with (2 ^ 63 - 1).
      unfold saturate, min_int64, max_int64 in *. lia.
    + unfold min_int64 in Hlo. lia.
Qed.


(** ** float64: the integer part *)

Lemma digits2_pos_size m : digits2_pos m = Pos.size m.
Proof. induction m as [m IH|m IH|]; cbn; now rewrite ?IH. Qed.

(** The mantissa of a canonical float has at most 53 bits, and exactly 53
    above the least exponent. *)
Lemma valid_finite s m e : float64.valid (S754_finite s m e) ->
  Z.pos m < 2 ^ 53 /\ -1074 <= e /\ (-1074 < e -> 2 ^ 52 <= Z.pos m).
Proof.
  unfold float64.valid, valid_binary, bounded, canonical_mantissa, fexp, emin.
  unfold float64.prec, float64.emax.
  intros H. apply andb_prop in H as [H _]. apply Z.eqb_eq in H.
  rewrite digits2_pos_size in H.
  pose proof (Pos.size_gt m) as Hgt. pose proof (Pos.size_le m) as Hle.
  apply Pos2Z.pos_lt_pos in Hgt. apply Pos2Z.pos_le_pos in Hle.
  rewrite Pos2Z.inj_pow in Hgt, Hle.
  change (Z.pos m~0) with (2 * Z.pos m) in Hle.
  set (d := Z.pos (Pos.size m)) in *.
  assert (0 < d) as Hd by (unfold d; lia). clearbody d.
  assert (d <= 53) as Hd53 by lia.
  assert (2 ^ d <= 2 ^ 53) as Hpow by (apply Z.pow_le_mono_r; lia).
  repeat split; try lia.
  intros He. assert (d = 53) as -> by lia.
  change (2 ^ 53) with (2 * 2 ^ 52) in Hle. lia.
Qed.

Lemma truncate_small s m e : e < 0 -> Z.pos m < 2 ^ (- e) ->
  float64.truncate (S754_finite s m e) = Some 0.
Proof.
  intros He Hm. unfold float64.truncate.
  destruct (Z.leb_spec 0 e); [lia|]. f_equal.
  destruct s; cbn [cond_Zopp].
  - rewrite Z.quot_opp_l by lia. rewrite Z.quot_small by lia. reflexivity.
  - apply Z.quot_small. lia.
Qed.

Lemma truncate_cleared s m e : e < 0 -> 2 ^ (- e) <= Z.pos m ->
  float64.truncate
    (S754_finite s (Z.to_pos (Z.ldiff (Z.pos m) (Z.ones (- e)))) e)
  = float64.truncate (S754_finite s m e).
Proof.
  intros He Hm. unfold float64.truncate.
  destruct (Z.leb_spec 0 e); [lia|]. f_equal.
  set (k := - e) in *. assert (0 < k) as Hk by lia.
  assert (0 < 2 ^ k) as Hpow by (apply Z.pow_pos_nonneg; lia).
  rewrite Z.ldiff_ones_r, Z.shiftr_div_pow2, Z.shiftl_mul_pow2 by lia.
  assert (1 <= Z.pos m / 2 ^ k) as Hq
    by (apply Z.div_le_lower_bound; lia).
  rewrite Z2Pos.id by nia.
  destruct s; cbn [cond_Zopp].
  - rewrite !Z.quot_opp_l by lia. f_equal.
    rewrite Z.quot_mul by lia. symmetry. apply Z.quot_div_nonneg; lia.
  - rewrite Z.quot_mul by lia. symmetry. apply Z.quot_div_nonneg; lia.
Qed.

Lemma ltb_one m e :
  float64.ltb (S754_finite false m e) float64.one
  = match e ?= -52 with
    | Lt => true
    | Gt => false
    | Eq => match (m ?= 4503599627370496)%positive with Lt => true | _ => false end
    end.
Proof.
  unfold float64.ltb, SFltb, float64.one. cbn [SFcompare].
  rewrite Pos.compare_cont_spec. cbn [Pos.switch_Eq].
  destruct (e ?= -52); destruct (m ?= 4503599627370496)%positive; reflexivity.
Qed.

(** The integer part of [Modf], for a positive float and, negated, for its
    opposite: the truncation of the float. *)
Lemma modf_nonneg_truncate (s : bool) m e : float64.valid (S754_finite false m e) ->
  let int := fst (math.modf_nonneg (S754_finite false m e)) in
  float64.truncate (if s then float64.neg int else int)
  = float64.truncate (S754_finite s m e).
Proof.
  intros Hv. destruct (valid_finite false m e Hv) as (Hm & He & Hnorm).
  assert (e < 0 -> Z.pos m < 2 ^ (- e) ->
          float64.truncate (if s then float64.neg float64.zero else float64.zero)
          = float64.truncate (S754_finite s m e)) as Hsmall.
  { intros He0 Hlt. rewrite truncate_small by assumption. now destruct s. }
  assert (e < 0 -> 2 ^ (- e) <= Z.pos m ->
          float64.truncate
            (if s
             then float64.neg
                    (S754_finite false
                       (Z.to_pos (Z.ldiff (Z.pos m) (Z.ones (- e)))) e)
             else S754_finite false
                    (Z.to_pos (Z.ldiff (Z.pos m) (Z.ones (- e)))) e)
          = float64.truncate (S754_finite s m e)) as Hbig.
  { intros He0 Hge. rewrite <- (truncate_cleared s m e He0 Hge). now destruct s. }
  assert (2 ^ 52 = 4503599627370496) as E52 by reflexivity.
  unfold math.modf_nonneg. rewrite ltb_one.
  change (float64.eqb (S754_finite false m e) float64.zero) with false.
  destruct (Z.compare_spec e (-52)) as [Heq|Hlt|Hgt].
  - assert (2 ^ (- e) = 4503599627370496) as Epow by (subst e; reflexivity).
    destruct (Pos.compare_spec m 4503599627370496) as [Hc|Hc|Hc].
    + destruct (Z.ltb_spec e 0); [|lia]. cbn [fst]. apply Hbig; lia.
    + apply Pos2Z.pos_lt_pos in Hc. cbn [fst]. apply Hsmall; lia.
    + apply Pos2Z.pos_lt_pos in Hc.
      destruct (Z.ltb_spec e 0); [|lia]. cbn [fst]. apply Hbig; lia.
  - cbn [fst]. apply Hsmall; [lia|].
    assert (2 ^ 53 <= 2 ^ (- e)) by (apply Z.pow_le_mono_r; lia). lia.
  - destruct (Z.ltb_spec e 0) as [He0|He0]; cbn [fst].
    + apply Hbig; [exact He0|].
      assert (2 ^ (- e) <= 2 ^ 52) by (apply Z.pow_le_mono_r; lia).
      specialize (Hnorm ltac:(lia)). lia.
    + now destruct s.
Qed.

Lemma Modf_truncate x : float64.valid x ->
  float64.truncate (fst (math.Modf x)) = float64.truncate x.
Proof.
  intros Hv. destruct x as [s|s| |s m e].
  - destruct s; reflexivity.
  - destruct s; reflexivity.
  - reflexivity.
  - assert (float64.valid (S754_finite false m e)) as Hv' by exact Hv.
    pose proof (modf_nonneg_truncate s m e Hv') as H. cbv zeta in H.
    destruct s.
    + unfold math.Modf.
      change (float64.ltb (S754_finite true m e) float64.one) with true.
      change (float64.ltb (S754_finite true m e) float64.zero) with true.
      cbn [andb float64.neg SFopp negb].
      destruct (math.modf_nonneg (S754_finite false m e)) as [int frac].
      exact H.
    + unfold math.Modf.
      change (float64.ltb (S754_finite false m e) float64.zero) with false.
      rewrite andb_false_r. exact H.
Qed.

Lemma Modf_to_int64 x : float64.valid x ->
  float64.to_int64 (fst (math.Modf x)) = float64.to_int64 x.
Proof. intros Hv. unfold float64.to_int64. now rewrite Modf_truncate. Qed.

Lemma to_int64_int64 x : int64 (float64.to_int64 x).
Proof.
  unfold float64.to_int64, int64.
  destruct (float64.truncate x) as [v|]; [|unfold min_int64, max_int64; lia].
  destruct (Z.leb_spec min_int64 v); destruct (Z.leb_spec v max_int64);
    cbn [andb]; unfold min_int64, max_int64 in *; lia.
Qed.
(** ** The examples of the readme *)

Example readme_RoundInt :
  RoundInt 555 0 = Some 555 /\ RoundInt 555 (-1) = Some 560
  /\ RoundInt 555 (-2) = Some 600 /\ RoundInt 555 (-3) = Some 1000.
Proof. repeat split; vm_compute; reflexivity. Qed.

Example readme_FormatInt :
  FormatInt 5555555 0 = Some "5,555,555"%string
  /\ FormatInt 5555555 (-1) = Some "5,555,560"%string
  /\ FormatInt 5555555 (-2) = Some "5,555,600"%string
  /\ FormatInt 5555555 (-3) = Some "5,556,000"%string.
Proof. repeat split; vm_compute; reflexivity. Qed.

(** ** The claims on RoundInt *)

(** Claim C1, as stated, fails where the rounded value leaves the int64
    range: the greatest int64 rounded to tens comes back unchanged, and it
    is not a multiple of ten. *)
Lemma RoundInt_multiple_counterexample :
  int64 9223372036854775807 /\ -1 < 0
  /\ RoundInt 9223372036854775807 (-1) = Some 9223372036854775807
  /\ ~ (10 ^ (- -1) | Z.abs 9223372036854775807).
Proof.
  repeat split; try (vm_compute; congruence).
  intros [q Hq].
  change (Z.abs 9223372036854775807) with 9223372036854775807 in Hq.
  change (10 ^ (- -1)) with 10 in Hq. lia.
Qed.

(** Claim C1, amended: for every int64 [x] and every negative precision,
    [RoundInt] returns a value whose magnitude is a multiple of
    [10 ^ (- precision)], unless that value is one of the two bounds of the
    int64 range, which [RoundInt] returns when the rounded value does not
    fit. *)
Theorem RoundInt_multiple x precision : int64 x -> precision < 0 ->
  exists r, RoundInt x precision = Some r
    /\ (r <> max_int64 -> r <> min_int64 -> (10 ^ (- precision) | Z.abs r)).
Proof.
  intros Hx Hp. exists (round_int_spec x precision).
  split; [now apply RoundInt_arith|].
  unfold round_int_spec.
  destruct (nearest_multiple_quotient (Z.abs x) (- precision) ltac:(lia) ltac:(lia))
    as (q & Hq & ->).
  destruct (saturate_cases (Z.sgn x * (q * 10 ^ (- precision))))
    as [[Hin ->]|[[Hhi ->]|[Hlo ->]]]; [|easy|easy].
  intros _ _. rewrite Z.abs_mul. apply Z.divide_mul_r.
  rewrite Z.abs_mul. apply Z.divide_mul_r.
  rewrite Z.abs_eq by (apply Z.pow_nonneg; lia). apply Z.divide_refl.
Qed.

Lemma RoundInt_multiple_witness :
  int64 (-555) /\ -2 < 0
  /\ exists r, RoundInt (-555) (-2) = Some r
       /\ (r <> max_int64 -> r <> min_int64 -> (10 ^ (- -2) | Z.abs r)).
Proof.
  split; [unfold int64, min_int64, max_int64; lia|].
  split; [lia|].
  apply (RoundInt_multiple (-555) (-2)); [unfold int64, min_int64, max_int64; lia | lia].
Defined.

(** Claim C2: the test vectors of the carry cascade and of the sign. *)
Theorem RoundInt_test_vectors :
  RoundInt 999 (-1) = Some 1000 /\ RoundInt 995 (-1) = Some 1000
  /\ RoundInt 994 (-1) = Some 990 /\ RoundInt (-555) (-2) = Some (-600).
Proof. repeat split; vm_compute; reflexivity. Qed.

(** Claim C3, as stated, fails for nineteen digits and a leading digit of
    five or more: [10 ^ 19] is not an int64, and the result is the bound of
    the range. *)
Lemma RoundInt_collapse_counterexample :
  int64 5000000000000000000 /\ 5000000000000000000 <> 0 /\ -19 < 0
  /\ has_digits (Z.abs 5000000000000000000) (- -19)
  /\ ~ leading_digit (Z.abs 5000000000000000000) (- -19) < 5
  /\ RoundInt 5000000000000000000 (-19) = Some max_int64
  /\ RoundInt 5000000000000000000 (-19)
     <> Some (Z.sgn 5000000000000000000 * 10 ^ (- -19)).
Proof.
  unfold int64, has_digits, leading_digit, min_int64, max_int64.
  repeat split; try (vm_compute; congruence).
Qed.

(** Claim C3, amended: for every int64 [x] with as many decimal digits as
    [- precision], [RoundInt] returns 0 when the leading digit is below 5;
    otherwise it returns [10 ^ (- precision)] with the sign of [x] when
    [- precision <= 18], and the bound of the int64 range on the side of
    [x] when [- precision = 19]. *)
Theorem RoundInt_collapse x precision : int64 x -> precision < 0 ->
  has_digits (Z.abs x) (- precision) ->
  (leading_digit (Z.abs x) (- precision) < 5 -> RoundInt x precision = Some 0)
  /\ (5 <= leading_digit (Z.abs x) (- precision) -> - precision <= 18 ->
      RoundInt x precision = Some (Z.sgn x * 10 ^ (- precision)))
  /\ (5 <= leading_digit (Z.abs x) (- precision) -> - precision = 19 ->
      RoundInt x precision = Some (if x <? 0 then min_int64 else max_int64)).
Proof.
  intros Hx Hp. rewrite (RoundInt_arith x precision Hx Hp).
  unfold round_int_spec, has_digits, leading_digit.
  set (k := - precision). assert (1 <= k) as Hk by lia. clearbody k.
  intros [Hlo Hhi].
  destruct (pow10_split k Hk) as (E & E2 & HP).
  pose proof (Z.div_mod (Z.abs x) (10 ^ (k - 1)) ltac:(lia)) as Hdm.
  pose proof (Z.mod_pos_bound (Z.abs x) (10 ^ (k - 1)) HP) as Hmod.
  replace (Z.abs x) with (0 * 10 ^ k + Z.abs x) at 2 4 6 by lia.
  split; [|split].
  - intros H5. rewrite nearest_multiple_down; [|exact Hk|nia].
    now rewrite Z.mul_0_l, Z.mul_0_r.
  - intros H5 H18. rewrite nearest_multiple_up; [|exact Hk|nia].
    rewrite Z.add_0_l, Z.mul_1_l. f_equal. apply saturate_id.
    assert (10 ^ k <= 10 ^ 18) by (apply Z.pow_le_mono_r; lia).
    unfold int64, min_int64, max_int64. change (10 ^ 18) with 1000000000000000000 in *.
    lia.
  - intros H5 H19. rewrite nearest_multiple_up; [|exact Hk|nia].
    rewrite Z.add_0_l, Z.mul_1_l. subst k. f_equal.
    change (10 ^ 19) with 10000000000000000000 in *.
    change (10 ^ (19 - 1)) with 1000000000000000000 in *.
    unfold saturate, min_int64, max_int64.
    destruct (Z.ltb_spec x 0); lia.
Qed.

Lemma RoundInt_collapse_witness :
  RoundInt 4 (-1) = Some 0 /\ RoundInt 5 (-1) = Some 10
  /\ RoundInt (-5) (-1) = Some (-10).
Proof.
  assert (forall x, x = 4 \/ x = 5 \/ x = -5 -> int64 x) as Hint
    by (unfold int64, min_int64, max_int64; lia).
  assert (forall x, x = 4 \/ x = 5 \/ x = -5 -> has_digits (Z.abs x) (- -1)) as Hdig
    by (unfold has_digits; intros x [->|[->| ->]]; cbn; lia).
  assert (-1 < 0) as Hp by lia.
  split; [|split].
  - apply (proj1 (RoundInt_collapse 4 (-1) (Hint 4 ltac:(lia)) Hp (Hdig 4 ltac:(lia)))).
    vm_compute. reflexivity.
  - apply (proj1 (proj2 (RoundInt_collapse 5 (-1) (Hint 5 ltac:(lia)) Hp
                           (Hdig 5 ltac:(lia)))));
      vm_compute; congruence.
  - apply (proj1 (proj2 (RoundInt_collapse (-5) (-1) (Hint (-5) ltac:(lia)) Hp
                           (Hdig (-5) ltac:(lia)))));
      vm_compute; congruence.
Defined.

(** With a precision that is not negative, [RoundInt] of decimals.go
    returns [x] unchanged. *)
Lemma RoundInt_unchanged x precision :
  0 <= precision -> RoundInt x precision = Some x.
Proof.
  intros Hp. unfold RoundInt, round_digits.
  destruct (Z.gtb_spec precision (-1)); [reflexivity | lia].
Qed.

(** The implementation by scaling treats a positive precision as zero. *)
Lemma Scaling_RoundInt_clamps x precision :
  0 <= precision -> Scaling.RoundInt x precision = Scaling.RoundInt x 0.
Proof.
  intros Hp. unfold Scaling.RoundInt.
  destruct (Z.gtb_spec precision 0) as [Hgt|Hle].
  - reflexivity.
  - replace precision with 0 by lia. reflexivity.
Qed.

(** Claim C4 holds of one of the two implementations only.  With a
    precision that is not negative, [RoundInt] of decimals.go returns [x]
    unchanged, for every [x].  The [RoundInt] by scaling takes such a
    precision for zero and still sends [x] through float64, which keeps 53
    bits: on [2 ^ 53 + 1], an int64, it returns [2 ^ 53], whatever the
    precision. *)
Theorem RoundInt_nonnegative_precision x precision :
  0 <= precision ->
  RoundInt x precision = Some x
  /\ Scaling.RoundInt x precision = Scaling.RoundInt x 0
  /\ int64 9007199254740993
  /\ RoundInt 9007199254740993 precision = Some 9007199254740993
  /\ Scaling.RoundInt 9007199254740993 precision = 9007199254740992
  /\ Scaling.RoundInt 9007199254740993 precision <> 9007199254740993.
Proof.
  intros Hp.
  assert (Scaling.RoundInt 9007199254740993 precision = 9007199254740992) as E.
  { rewrite (Scaling_RoundInt_clamps _ precision Hp). vm_compute. reflexivity. }
  split; [now apply RoundInt_unchanged|].
  split; [now apply Scaling_RoundInt_clamps|].
  split; [unfold int64, min_int64, max_int64; lia|].
  split; [now apply RoundInt_unchanged|].
  split; [exact E|]. rewrite E. discriminate.
Qed.

Lemma RoundInt_nonnegative_precision_witness :
  0 <= 2
  /\ RoundInt 555 2 = Some 555
  /\ Scaling.RoundInt 9007199254740993 2 = 9007199254740992.
Proof.
  assert (0 <= 2) as Hp by lia.
  pose proof (RoundInt_nonnegative_precision 555 2 Hp) as (H1 & _ & _ & _ & H2 & _).
  split; [exact Hp|]. split; [exact H1 | exact H2].
Defined.

(** Claim C5: [RoundInt] is idempotent at a fixed precision, for every
    int64 [x] and every precision. *)
Theorem RoundInt_idempotent x precision : int64 x ->
  exists r, RoundInt x precision = Some r /\ RoundInt r precision = Some r.
Proof.
  intros Hx. destruct (Z.lt_ge_cases precision 0) as [Hp|Hp].
  - exists (round_int_spec x precision).
    rewrite !RoundInt_arith by (try apply saturate_int64; assumption).
    now rewrite round_int_spec_fixed.
  - exists x. unfold RoundInt, round_digits.
    destruct (Z.gtb_spec precision (-1)); [split; reflexivity | lia].
Qed.

Lemma RoundInt_idempotent_witness :
  int64 995
  /\ exists r, RoundInt 995 (-1) = Some r /\ RoundInt r (-1) = Some r.
Proof.
  assert (int64 995) as H by (unfold int64, min_int64, max_int64; lia).
  split; [exact H | apply (RoundInt_idempotent 995 (-1) H)].
Defined.

(** Claim C9, as stated, fails in its example: rounding the greatest int64
    to tens increments the digit of the tens, without any carry, and the
    string that is converted has nineteen digits, not twenty. *)
Lemma RoundInt_saturates_counterexample :
  round_digits 9223372036854775807 (-1) = Some (Convert "9223372036854775810")
  /\ String.length "9223372036854775810" = 19%nat
  /\ String.length "9223372036854775810" <> 20%nat.
Proof. repeat split; vm_compute; congruence. Qed.

(** Claim C9, amended: when the rounded value does not fit in an int64, as
    for the greatest int64 rounded to tens, whose rounded digits are the
    nineteen of 9223372036854775810, [RoundInt] reaches the conversion of
    the string of the rounded digits, [ParseInt] returns the bound of the
    int64 range on the side of the value together with a range error, and
    [RoundInt] returns that bound. *)
Theorem RoundInt_saturates x precision : int64 x -> precision < 0 ->
  let rounded := Z.sgn x * nearest_multiple (Z.abs x) (- precision) in
  let bound := if rounded <? 0 then min_int64 else max_int64 in
  ~ int64 rounded ->
  exists rstr, round_digits x precision = Some (Convert rstr)
    /\ strconv.ParseInt rstr = (bound, Some strconv.ErrRange)
    /\ RoundInt x precision = Some bound.
Proof.
  intros Hx Hp rounded bound Hout.
  assert (saturate rounded = bound) as Hsat.
  { unfold bound, int64, saturate, min_int64, max_int64 in *.
    destruct (Z.ltb_spec rounded 0); lia. }
  pose proof (RoundInt_arith x precision Hx Hp) as HR.
  unfold round_int_spec in HR. fold rounded in HR. rewrite Hsat in HR.
  destruct (round_digits_arith x precision Hx Hp)
    as (e & He & [[-> Hnm]|(ds & -> & Hds & Hne & Hv)]).
  - exfalso. apply Hout. unfold rounded. rewrite Hnm, Z.mul_0_r.
    unfold int64, min_int64, max_int64. lia.
  - exists (signed_digits x ds). split; [exact He|]. split; [|exact HR].
    rewrite (ParseInt_signed x ds Hds Hne).
    rewrite (signed_value_sgn x (- precision) ds) by (assumption || lia).
    fold rounded. rewrite Hsat. f_equal.
    unfold int64 in Hout.
    destruct (Z.leb_spec min_int64 rounded); destruct (Z.leb_spec rounded max_int64);
      cbn [andb]; try reflexivity. lia.
Qed.

Lemma RoundInt_saturates_witness :
  (exists rstr, round_digits 9223372036854775807 (-1) = Some (Convert rstr)
     /\ strconv.ParseInt rstr = (max_int64, Some strconv.ErrRange)
     /\ RoundInt 9223372036854775807 (-1) = Some max_int64)
  /\ (exists rstr, round_digits (-9223372036854775808) (-1) = Some (Convert rstr)
        /\ strconv.ParseInt rstr = (min_int64, Some strconv.ErrRange)
        /\ RoundInt (-9223372036854775808) (-1) = Some min_int64).
Proof.
  assert (int64 9223372036854775807) as H1 by (unfold int64, min_int64, max_int64; lia).
  assert (int64 (-9223372036854775808)) as H2
    by (unfold int64, min_int64, max_int64; lia).
  assert (-1 < 0) as Hp by lia.
  split.
  - apply (RoundInt_saturates 9223372036854775807 (-1) H1 Hp).
    intros [_ H]. apply H. vm_compute. reflexivity.
  - apply (RoundInt_saturates (-9223372036854775808) (-1) H2 Hp).
    intros [H _]. apply H. vm_compute. reflexivity.
Defined.

(** ** The claim on FormatThousands *)

(** Claim C8: for every int64 [x], [FormatThousands] returns the decimal
    digits of [x], a comma after every three of them counted from the least
    significant one, and a leading minus sign exactly when [x] is
    negative. *)
Theorem FormatThousands_groups x : int64 x ->
  FormatThousands x = Some (format_thousands_spec x)
  /\ exists ds, bytes_of_string (strconv.FormatInt (Z.abs x)) = to_bytes ds
       /\ Forall is_digit ds /\ value ds = Z.abs x
       /\ (x = 0 -> ds = [0]) /\ (x <> 0 -> 0 < hd 0 ds).
Proof.
  intros Hx. split; [now apply FormatThousands_spec|].
  destruct (Z.eq_dec x 0) as [->|Hx0].
  - exists [0]. repeat split; try easy.
    constructor; [unfold is_digit; lia | constructor].
  - destruct (format_bits_spec 19 (Z.abs x) [] (int64_abs_lt x Hx))
      as (ds & Heq & Hds & Hv & Hne & Hhd).
    exists ds. split; [|split; [exact Hds|split; [exact Hv|split]]].
    + unfold strconv.FormatInt, bytes_of_string, string_of_bytes.
      rewrite list_ascii_of_string_of_list_ascii, Z.abs_idemp.
      destruct (Z.ltb_spec (Z.abs x) 0); [lia|].
      now rewrite Heq, app_nil_r.
    + easy.
    + intros _. apply Hhd. lia.
Qed.

Lemma FormatThousands_groups_witness :
  FormatThousands (-1234) = Some "-1,234"%string
  /\ FormatThousands 0 = Some "0"%string
  /\ FormatThousands 5556000 = Some "5,556,000"%string.
Proof.
  assert (forall x, x = -1234 \/ x = 0 \/ x = 5556000 -> int64 x) as Hint
    by (unfold int64, min_int64, max_int64; lia).
  split; [|split].
  - rewrite (proj1 (FormatThousands_groups (-1234) (Hint (-1234) ltac:(lia)))).
    vm_compute. reflexivity.
  - rewrite (proj1 (FormatThousands_groups 0 (Hint 0 ltac:(lia)))).
    vm_compute. reflexivity.
  - rewrite (proj1 (FormatThousands_groups 5556000 (Hint 5556000 ltac:(lia)))).
    vm_compute. reflexivity.
Defined.

(** ** Properties of RoundFloat *)



(** Claim C7 fails on decimals.go: for a precision that is not negative
    [RoundFloat] goes through [strconv.FormatFloat], which rounds the exact
    value of the float and sends a tie to the even neighbour, so that 0.5
    and 2.5 round to 0 and to 2, and 55.555, whose float lies below the
    decimal number, to 55.55.  The implementation by scaling rounds them
    away from zero, to 1, 3 and 55.56. *)
Theorem RoundFloat_ties :
  strconv.FormatFloat (literal "0.5") 0 = "0"%string
  /\ RoundFloat (literal "0.5") 0 = Some float64.zero
  /\ RoundFloat (literal "2.5") 0 = Some (literal "2")
  /\ RoundFloat (literal "55.555") 2 = Some (literal "55.55")
  /\ Scaling.RoundFloat (literal "0.5") 0 = literal "1"
  /\ Scaling.RoundFloat (literal "2.5") 0 = literal "3"
  /\ Scaling.RoundFloat (literal "55.555") 2 = literal "55.56".
Proof. repeat split; vm_compute; reflexivity. Qed.

(** Claim C10 fails: above [2 ^ 53] the conversion to float64 of the
    implementation by scaling loses the last digits of [x], which the
    implementation on digits keeps. *)
Theorem RoundInt_implementations_differ :
  RoundInt 9007199254740993 0 = Some 9007199254740993
  /\ Scaling.RoundInt 9007199254740993 0 = 9007199254740992
  /\ RoundInt 1000000000000000015 (-1) = Some 1000000000000000020
  /\ Scaling.RoundInt 1000000000000000015 (-1) = 1000000000000000000.
Proof. repeat split; vm_compute; reflexivity. Qed.

(** * Further properties of the package *)

(** ** Further properties of RoundInt *)

Lemma nearest_multiple_nonneg m k : 0 <= m -> 1 <= k -> 0 <= nearest_multiple m k.
Proof.
  intros Hm Hk. destruct (nearest_multiple_quotient m k Hm Hk) as (q & Hq & ->).
  destruct (pow10_split k Hk) as (_ & _ & HP).
  assert (0 < 10 ^ k) by (apply Z.pow_pos_nonneg; lia). nia.
Qed.

(** The nearest multiple is at most half a step away, and a half is rounded
    up. *)
Lemma nearest_multiple_distance m k : 0 <= m -> 1 <= k ->
  2 * Z.abs (nearest_multiple m k - m) <= 10 ^ k
  /\ (2 * Z.abs (nearest_multiple m k - m) = 10 ^ k -> m < nearest_multiple m k).
Proof.
  intros Hm Hk. destruct (pow10_split k Hk) as (E & E2 & HP).
  unfold nearest_multiple. rewrite E2.
  assert (0 < 10 ^ k) as HPk by lia.
  pose proof (Z.div_mod (m + 5 * 10 ^ (k - 1)) (10 ^ k) ltac:(lia)) as Hdm.
  pose proof (Z.mod_pos_bound (m + 5 * 10 ^ (k - 1)) (10 ^ k) HPk) as Hmod.
  lia.
Qed.

Lemma nearest_multiple_zero_iff m k : 0 <= m -> 1 <= k ->
  nearest_multiple m k = 0 <-> 2 * m < 10 ^ k.
Proof.
  intros Hm Hk. destruct (pow10_split k Hk) as (E & E2 & HP).
  split.
  - intros H0. destruct (Z.lt_ge_cases (2 * m) (10 ^ k)) as [|Hge]; [assumption|].
    replace m with (0 * 10 ^ k + m) in H0 by lia.
    destruct (Z.lt_ge_cases m (10 ^ k)) as [Hlt|Hbig].
    + rewrite nearest_multiple_up in H0 by lia. lia.
    + pose proof (nearest_multiple_distance (0 * 10 ^ k + m) k ltac:(lia) Hk) as [Hd _].
      rewrite H0 in Hd. lia.
  - intros Hlt. replace m with (0 * 10 ^ k + m) by lia.
    rewrite nearest_multiple_down by lia. lia.
Qed.

(** The signed rounding is monotone. *)
Lemma signed_nearest_multiple_mono x y k : 1 <= k -> x <= y ->
  Z.sgn x * nearest_multiple (Z.abs x) k <= Z.sgn y * nearest_multiple (Z.abs y) k.
Proof.
  intros Hk Hxy.
  pose proof (nearest_multiple_nonneg (Z.abs x) k ltac:(lia) Hk) as Hx0.
  pose proof (nearest_multiple_nonneg (Z.abs y) k ltac:(lia) Hk) as Hy0.
  pose proof (nearest_multiple_mono (Z.abs x) (Z.abs y) k Hk) as Hup.
  pose proof (nearest_multiple_mono (Z.abs y) (Z.abs x) k Hk) as Hdown.
  destruct (Z.sgn_spec x) as [[Hx Ex]|[[Hx Ex]|[Hx Ex]]]; rewrite Ex;
    destruct (Z.sgn_spec y) as [[Hy Ey]|[[Hy Ey]|[Hy Ey]]]; rewrite Ey; lia.
Qed.

(** [RoundInt] returns on every int64, with an int64. *)
Lemma RoundInt_some x precision : int64 x ->
  exists r, RoundInt x precision = Some r /\ int64 r.
Proof.
  intros Hx. destruct (Z.lt_ge_cases precision 0) as [Hp|Hp].
  - exists (round_int_spec x precision). split; [now apply RoundInt_arith|].
    apply saturate_int64.
  - exists x. split; [|exact Hx]. unfold RoundInt, round_digits.
    destruct (Z.gtb_spec precision (-1)); [reflexivity | lia].
Qed.

(** Property X1: on every int64 and for every precision, [RoundInt] returns
    (no index of its slices is out of range), and what it returns is an
    int64. *)
Theorem RoundInt_in_range x precision : int64 x ->
  exists r, RoundInt x precision = Some r /\ int64 r.
Proof.
  intros Hx. destruct (Z.lt_ge_cases precision 0) as [Hp|Hp].
  - exists (round_int_spec x precision).
    split; [apply RoundInt_arith; assumption | apply saturate_int64].
  - exists x. split; [|exact Hx]. unfold RoundInt, round_digits.
    destruct (Z.gtb_spec precision (-1)); [reflexivity | lia].
Qed.

Lemma RoundInt_in_range_witness :
  int64 9223372036854775807
  /\ exists r, RoundInt 9223372036854775807 (-1) = Some r /\ int64 r.
Proof.
  assert (int64 9223372036854775807) as H by (unfold int64, min_int64, max_int64; lia).
  split; [exact H | apply (RoundInt_in_range 9223372036854775807 (-1) H)].
Defined.

(** Property X2: [RoundInt] is monotone at a fixed precision: a greater
    int64 never rounds to a smaller one, the saturated results included. *)
Theorem RoundInt_monotone x y precision : int64 x -> int64 y -> x <= y ->
  exists rx ry, RoundInt x precision = Some rx /\ RoundInt y precision = Some ry
    /\ rx <= ry.
Proof.
  intros Hx Hy Hxy. destruct (Z.lt_ge_cases precision 0) as [Hp|Hp].
  - exists (round_int_spec x precision), (round_int_spec y precision).
    rewrite !RoundInt_arith by assumption. repeat split.
    unfold round_int_spec.
    pose proof (signed_nearest_multiple_mono x y (- precision) ltac:(lia) Hxy).
    unfold saturate. lia.
  - exists x, y. unfold RoundInt, round_digits.
    destruct (Z.gtb_spec precision (-1)); [repeat split; assumption | lia].
Qed.

Lemma RoundInt_monotone_witness :
  int64 (-555) /\ int64 554 /\ -555 <= 554
  /\ exists rx ry, RoundInt (-555) (-1) = Some rx /\ RoundInt 554 (-1) = Some ry
       /\ rx <= ry.
Proof.
  assert (int64 (-555)) as Hx by (unfold int64, min_int64, max_int64; lia).
  assert (int64 554) as Hy by (unfold int64, min_int64, max_int64; lia).
  assert (-555 <= 554) as Hxy by lia.
  split; [exact Hx|]. split; [exact Hy|]. split; [exact Hxy|].
  apply (RoundInt_monotone (-555) 554 (-1) Hx Hy Hxy).
Defined.

(** Property X3: for a negative precision, a result of [RoundInt] that is
    not a bound of the int64 range is the multiple of [10 ^ (- precision)]
    nearest to [x]: it is such a multiple, it lies at most half a step from
    [x], and when it lies exactly half a step away it is the neighbour of
    the greater magnitude: halves go away from zero. *)
Theorem RoundInt_nearest x precision : int64 x -> precision < 0 ->
  exists r, RoundInt x precision = Some r
    /\ (r <> max_int64 -> r <> min_int64 ->
        (10 ^ (- precision) | r)
        /\ 2 * Z.abs (r - x) <= 10 ^ (- precision)
        /\ (2 * Z.abs (r - x) = 10 ^ (- precision) -> Z.abs x < Z.abs r)).
Proof.
  intros Hx Hp. exists (round_int_spec x precision).
  split; [now apply RoundInt_arith|]. unfold round_int_spec.
  set (k := - precision). assert (1 <= k) as Hk by lia.
  pose proof (nearest_multiple_distance (Z.abs x) k ltac:(lia) Hk) as [Hd Ht].
  pose proof (nearest_multiple_nonneg (Z.abs x) k ltac:(lia) Hk) as HN.
  pose proof (proj2 (nearest_multiple_zero_iff 0 k ltac:(lia) Hk)) as H0.
  destruct (nearest_multiple_quotient (Z.abs x) k ltac:(lia) Hk) as (q & _ & Hq).
  assert (0 < 10 ^ k) as HPk by (apply Z.pow_pos_nonneg; lia).
  specialize (H0 ltac:(lia)).
  set (N := nearest_multiple (Z.abs x) k) in *.
  destruct (saturate_cases (Z.sgn x * N)) as [[Hin ->]|[[Hhi ->]|[Hlo ->]]];
    [|easy|easy].
  intros _ _. split.
  { exists (Z.sgn x * q). rewrite Hq. ring. }
  destruct (Z.lt_trichotomy x 0) as [Hneg|[->|Hpos]].
  - rewrite Z.sgn_neg in * by assumption. lia.
  - change (Z.abs 0) with 0 in *. unfold N. rewrite H0. cbn. lia.
  - rewrite Z.sgn_pos in * by assumption. lia.
Qed.

Lemma RoundInt_nearest_witness :
  int64 (-555) /\ -1 < 0
  /\ exists r, RoundInt (-555) (-1) = Some r
       /\ (r <> max_int64 -> r <> min_int64 ->
           (10 ^ (- -1) | r)
           /\ 2 * Z.abs (r - -555) <= 10 ^ (- -1)
           /\ (2 * Z.abs (r - -555) = 10 ^ (- -1) -> Z.abs (-555) < Z.abs r)).
Proof.
  assert (int64 (-555)) as Hx by (unfold int64, min_int64, max_int64; lia).
  assert (-1 < 0) as Hp by lia.
  split; [exact Hx|]. split; [exact Hp|].
  apply (RoundInt_nearest (-555) (-1) Hx Hp).
Defined.

(** Property X4: for a negative precision, [RoundInt] returns zero exactly
    on the int64 whose magnitude is below half of [10 ^ (- precision)]. *)
Theorem RoundInt_zero_iff x precision : int64 x -> precision < 0 ->
  RoundInt x precision = Some 0 <-> 2 * Z.abs x < 10 ^ (- precision).
Proof.
  intros Hx Hp. rewrite RoundInt_arith by assumption. unfold round_int_spec.
  set (k := - precision). assert (1 <= k) as Hk by lia.
  pose proof (nearest_multiple_zero_iff (Z.abs x) k ltac:(lia) Hk) as Hz.
  pose proof (nearest_multiple_nonneg (Z.abs x) k ltac:(lia) Hk) as HN.
  assert (0 < 10 ^ k) as HPk by (apply Z.pow_pos_nonneg; lia).
  set (N := nearest_multiple (Z.abs x) k) in *.
  unfold saturate, min_int64, max_int64.
  split.
  - intros [= H]. apply Hz.
    destruct (Z.lt_trichotomy x 0) as [Hneg|[->|Hpos]].
    + rewrite Z.sgn_neg in H by assumption. lia.
    + apply Hz. cbn. lia.
    + rewrite Z.sgn_pos in H by assumption. lia.
  - intros H. apply Hz in H. rewrite H, Z.mul_0_r. reflexivity.
Qed.

Lemma RoundInt_zero_iff_witness :
  int64 (-49) /\ -2 < 0
  /\ (RoundInt (-49) (-2) = Some 0 <-> 2 * Z.abs (-49) < 10 ^ (- -2)).
Proof.
  assert (int64 (-49)) as Hx by (unfold int64, min_int64, max_int64; lia).
  assert (-2 < 0) as Hp by lia.
  split; [exact Hx|]. split; [exact Hp|].
  apply (RoundInt_zero_iff (-49) (-2) Hx Hp).
Defined.

(** Property X5: for a negative precision, [RoundInt] returns its argument
    unchanged exactly on the multiples of [10 ^ (- precision)], for every
    int64 that is not a bound of the range. *)
Theorem RoundInt_fixed_point x precision :
  min_int64 < x < max_int64 -> precision < 0 ->
  RoundInt x precision = Some x <-> (10 ^ (- precision) | x).
Proof.
  intros Hx Hp.
  rewrite RoundInt_arith by (unfold int64; lia || assumption).
  unfold round_int_spec.
  set (k := - precision). assert (1 <= k) as Hk by lia.
  assert (0 < 10 ^ k) as HPk by (apply Z.pow_pos_nonneg; lia).
  split.
  - intros [= H].
    destruct (nearest_multiple_quotient (Z.abs x) k ltac:(lia) Hk) as (q & Hq & HN).
    rewrite HN in H.
    assert (Z.sgn x * (q * 10 ^ k) = x) as Hv
      by (unfold saturate in H; lia).
    exists (Z.sgn x * q). rewrite <- Hv at 1. ring.
  - intros [c Hc].
    assert (Z.abs x = Z.abs c * 10 ^ k) as Habs by (rewrite Hc, Z.abs_mul; lia).
    rewrite Habs, nearest_multiple_fixed, <- Habs by exact Hk.
    replace (Z.sgn x * Z.abs x) with x
      by (destruct (Z.sgn_spec x) as [[? ->]|[[? ->]|[? ->]]]; lia).
    f_equal. apply saturate_id. unfold int64. lia.
Qed.

Lemma RoundInt_fixed_point_witness :
  min_int64 < -600 < max_int64 /\ -2 < 0
  /\ (RoundInt (-600) (-2) = Some (-600) <-> (10 ^ (- -2) | -600)).
Proof.
  assert (min_int64 < -600 < max_int64) as Hx by (unfold min_int64, max_int64; lia).
  assert (-2 < 0) as Hp by lia.
  split; [exact Hx|]. split; [exact Hp|].
  apply (RoundInt_fixed_point (-600) (-2) Hx Hp).
Defined.

(** Property X6: [RoundInt] is symmetric about zero: when the result for
    [x] is not a bound of the int64 range, the result for [- x] is its
    opposite. *)
Theorem RoundInt_opposite x precision : int64 x -> int64 (- x) -> precision < 0 ->
  exists r, RoundInt x precision = Some r
    /\ (r <> max_int64 -> r <> min_int64 -> RoundInt (- x) precision = Some (- r)).
Proof.
  intros Hx Hnx Hp. exists (round_int_spec x precision).
  rewrite !RoundInt_arith by assumption. split; [reflexivity|].
  unfold round_int_spec. rewrite Z.abs_opp, Z.sgn_opp.
  set (N := nearest_multiple (Z.abs x) (- precision)).
  destruct (saturate_cases (Z.sgn x * N)) as [[Hin ->]|[[Hhi ->]|[Hlo ->]]];
    [|easy|easy].
  intros Hmax Hmin. f_equal.
  replace (- Z.sgn x * N) with (- (Z.sgn x * N)) by ring.
  apply saturate_id. unfold int64, min_int64, max_int64 in *. lia.
Qed.

Lemma RoundInt_opposite_witness :
  int64 555 /\ int64 (- 555) /\ -1 < 0
  /\ exists r, RoundInt 555 (-1) = Some r
       /\ (r <> max_int64 -> r <> min_int64 -> RoundInt (- 555) (-1) = Some (- r)).
Proof.
  assert (int64 555) as Hx by (unfold int64, min_int64, max_int64; lia).
  assert (int64 (- 555)) as Hnx by (unfold int64, min_int64, max_int64; lia).
  assert (-1 < 0) as Hp by lia.
  split; [exact Hx|]. split; [exact Hnx|]. split; [exact Hp|].
  apply (RoundInt_opposite 555 (-1) Hx Hnx Hp).
Defined.

(** Property X7: the error of [strconv.ParseInt] that [RoundInt] discards is
    never a syntax error (the string it builds is always a sign and decimal
    digits), and it is a range error exactly when the rounded value does
    not fit in an int64. *)
Theorem RoundInt_discarded_error x precision rstr : int64 x -> precision < 0 ->
  round_digits x precision = Some (Convert rstr) ->
  snd (strconv.ParseInt rstr) <> Some strconv.ErrSyntax
  /\ (snd (strconv.ParseInt rstr) = None
      <-> int64 (Z.sgn x * nearest_multiple (Z.abs x) (- precision))).
Proof.
  intros Hx Hp Hr.
  destruct (round_digits_arith x precision Hx Hp)
    as (e & He & [[-> Hnm]|(ds & -> & Hds & Hne & Hv)]);
    rewrite Hr in He; [discriminate He|].
  injection He as ->.
  rewrite (ParseInt_signed x ds Hds Hne). cbn [snd].
  rewrite (signed_value_sgn x (- precision) ds) by (assumption || lia).
  set (v := Z.sgn x * nearest_multiple (Z.abs x) (- precision)).
  unfold int64.
  destruct (Z.leb_spec min_int64 v); destruct (Z.leb_spec v max_int64);
    cbn [andb]; (split; [easy|]); split; try easy; lia.
Qed.

Lemma RoundInt_discarded_error_witness :
  snd (strconv.ParseInt "9223372036854775810") <> Some strconv.ErrSyntax
  /\ (snd (strconv.ParseInt "9223372036854775810") = None
      <-> int64 (Z.sgn 9223372036854775807
                 * nearest_multiple (Z.abs 9223372036854775807) (- -1))).
Proof.
  assert (int64 9223372036854775807) as Hx
    by (unfold int64, min_int64, max_int64; lia).
  assert (-1 < 0) as Hp by lia.
  assert (round_digits 9223372036854775807 (-1)
          = Some (Convert "9223372036854775810")) as Hr
    by (vm_compute; reflexivity).
  exact (RoundInt_discarded_error 9223372036854775807 (-1)
           "9223372036854775810" Hx Hp Hr).
Defined.

(** ** Further properties of FormatThousands *)

Lemma remove_commas_app b1 b2 :
  remove_commas (b1 ++ b2) = remove_commas b1 ++ remove_commas b2.
Proof. apply List.filter_app. Qed.

Lemma remove_commas_id b : no_comma b -> remove_commas b = b.
Proof.
  induction 1 as [|c b Hc _ IH]; [reflexivity|].
  cbn [remove_commas List.filter]. rewrite Hc. cbn [negb].
  fold (remove_commas b). now rewrite IH.
Qed.

Lemma remove_commas_grouped t : forall B, length B = (3 * t)%nat -> no_comma B ->
  remove_commas (grouped B) = B.
Proof.
  induction t as [|t IH]; intros B HB Hno.
  - destruct B; [reflexivity | easy].
  - destruct B as [|a [|b [|c B]]]; try (cbn in HB; lia).
    apply Forall_cons in Hno as [Ha Hno]. apply Forall_cons in Hno as [Hb Hno].
    apply Forall_cons in Hno as [Hc Hno].
    cbn [grouped remove_commas List.filter].
    change (Ascii.eqb "," ",") with true. rewrite Ha, Hb, Hc. cbn [negb].
    fold (remove_commas (grouped B)).
    rewrite IH by (assumption || (cbn [length] in HB; lia)). reflexivity.
Qed.

Lemma to_bytes_no_comma ds : Forall is_digit ds -> no_comma (to_bytes ds).
Proof.
  intros H. unfold no_comma, to_bytes. apply Forall_fmap.
  eapply Forall_impl; [exact H|]. intros d Hd. cbn. each_digit d Hd; reflexivity.
Qed.

(** [ParseInt] reads back what [FormatInt] writes. *)
Lemma ParseInt_FormatInt x : int64 x ->
  strconv.ParseInt (strconv.FormatInt x) = (x, None).
Proof.
  intros Hx. destruct (FormatInt_bytes x Hx) as (ds & Hb & Hds & Hv & Hne & _).
  assert (strconv.FormatInt x = signed_digits x ds) as ->.
  { unfold signed_digits, string_of_bytes. rewrite <- Hb.
    unfold bytes_of_string. now rewrite string_of_list_ascii_of_string. }
  rewrite (ParseInt_signed x ds Hds Hne).
  assert (signed_value x ds = x) as ->
    by (unfold signed_value; rewrite Hv; destruct (Z.ltb_spec x 0); lia).
  rewrite saturate_id by exact Hx. destruct Hx as [Hlo Hhi].
  destruct (Z.leb_spec min_int64 x); [|lia].
  destruct (Z.leb_spec x max_int64); [reflexivity | lia].
Qed.

(** The shape of the result: the sign, one to three digits, and groups of
    a comma and three digits. *)
Lemma FormatThousands_shape x : int64 x ->
  exists (A B : list byte) (t : nat),
    bytes_of_string (strconv.FormatInt (Z.abs x)) = A ++ B
    /\ length B = (3 * t)%nat /\ (1 <= length A <= 3)%nat
    /\ (exists ds, A ++ B = to_bytes ds /\ Forall is_digit ds)
    /\ FormatThousands x
       = Some (string_of_bytes ((if x <? 0 then ["-"%char] else []) ++ A ++ grouped B)).
Proof.
  intros Hx. rewrite (FormatThousands_spec x Hx). unfold format_thousands_spec.
  set (D := bytes_of_string (strconv.FormatInt (Z.abs x))).
  assert (exists ds, D = to_bytes ds /\ Forall is_digit ds /\ ds <> [])
    as (ds & HD & Hds & Hne).
  { unfold D, strconv.FormatInt, bytes_of_string, string_of_bytes.
    rewrite list_ascii_of_string_of_list_ascii, Z.abs_idemp.
    destruct (Z.ltb_spec (Z.abs x) 0); [lia|].
    destruct (format_bits_spec 19 (Z.abs x) [] (int64_abs_lt x Hx))
      as (ds & -> & Hds & _ & Hne & _).
    exists ds. now rewrite app_nil_r. }
  assert (1 <= length D)%nat as HlenD
    by (rewrite HD, to_bytes_length; destruct ds; [easy | cbn; lia]).
  set (t := ((length D - 1) / 3)%nat).
  pose proof (Nat.div_mod (length D - 1) 3 ltac:(lia)) as Hdm.
  pose proof (Nat.mod_upper_bound (length D - 1) 3 ltac:(lia)) as Hmod.
  fold t in Hdm.
  exists (take (length D - 3 * t) D), (drop (length D - 3 * t) D), t.
  assert (length (drop (length D - 3 * t) D) = (3 * t)%nat) as HB
    by (rewrite length_drop; lia).
  assert (1 <= length (take (length D - 3 * t) D) <= 3)%nat as HA
    by (rewrite length_take; lia).
  split; [now rewrite take_drop|]. split; [exact HB|]. split; [exact HA|].
  split; [rewrite take_drop; now exists ds|].
  rewrite <- (group_thousands_spec t _ _ HB HA), take_drop. reflexivity.
Qed.

Lemma FormatThousands_remove_commas x : int64 x ->
  exists s, FormatThousands x = Some s
    /\ remove_commas (bytes_of_string s) = bytes_of_string (strconv.FormatInt x).
Proof.
  intros Hx.
  destruct (FormatThousands_shape x Hx)
    as (A & B & t & HD & HB & HA & (ds & Hds & Hdig) & ->).
  assert (no_comma (A ++ B)) as Hno by (rewrite Hds; now apply to_bytes_no_comma).
  eexists. split; [reflexivity|].
  unfold bytes_of_string at 1, string_of_bytes.
  rewrite list_ascii_of_string_of_list_ascii.
  apply Forall_app in Hno as [HnoA HnoB].
  rewrite !remove_commas_app, (remove_commas_grouped t B HB HnoB),
    (remove_commas_id A HnoA).
  rewrite (FormatInt_abs_bytes x), HD.
  destruct (x <? 0); reflexivity.
Qed.

(** Property X8: [FormatThousands] loses nothing: for every int64 [x] it
    returns a string which, its commas removed, [strconv.ParseInt] reads
    back as [x] without an error. *)
Theorem FormatThousands_parse_back x : int64 x ->
  exists s, FormatThousands x = Some s
    /\ strconv.ParseInt (string_of_bytes (remove_commas (bytes_of_string s)))
       = (x, None).
Proof.
  intros Hx. destruct (FormatThousands_remove_commas x Hx) as (s & Hs & Hr).
  exists s. split; [exact Hs|]. rewrite Hr.
  unfold string_of_bytes, bytes_of_string.
  rewrite string_of_list_ascii_of_string. now apply ParseInt_FormatInt.
Qed.

Lemma FormatThousands_parse_back_witness :
  int64 (-1234567)
  /\ exists s, FormatThousands (-1234567) = Some s
       /\ strconv.ParseInt (string_of_bytes (remove_commas (bytes_of_string s)))
          = (-1234567, None).
Proof.
  assert (int64 (-1234567)) as H by (unfold int64, min_int64, max_int64; lia).
  split; [exact H | apply (FormatThousands_parse_back (-1234567) H)].
Defined.

(** Property X9: [FormatThousands] is injective on the int64: two numbers
    with the same formatted string are equal. *)
Theorem FormatThousands_injective x y : int64 x -> int64 y ->
  FormatThousands x = FormatThousands y -> x = y.
Proof.
  intros Hx Hy E.
  destruct (FormatThousands_remove_commas x Hx) as (s & Hs & Hr).
  destruct (FormatThousands_remove_commas y Hy) as (s' & Hs' & Hr').
  assert (s = s') as <- by congruence.
  assert (strconv.FormatInt x = strconv.FormatInt y) as EF.
  { rewrite <- (string_of_list_ascii_of_string (strconv.FormatInt x)),
      <- (string_of_list_ascii_of_string (strconv.FormatInt y)).
    unfold bytes_of_string in *. congruence. }
  pose proof (ParseInt_FormatInt x Hx) as Px.
  pose proof (ParseInt_FormatInt y Hy) as Py.
  congruence.
Qed.

Lemma FormatThousands_injective_witness :
  int64 1000 /\ FormatThousands 1000 = FormatThousands 1000 /\ 1000 = 1000.
Proof.
  assert (int64 1000) as H by (unfold int64, min_int64, max_int64; lia).
  assert (FormatThousands 1000 = FormatThousands 1000) as E by reflexivity.
  split; [exact H|]. split; [exact E|].
  exact (FormatThousands_injective 1000 1000 H H E).
Defined.

(** The commas of the groups, counted from the end. *)
Lemma rev_grouped_comma t : forall (B : list byte) (j : nat),
  length B = (3 * t)%nat -> no_comma B ->
  length (grouped B) = (4 * t)%nat
  /\ (rev (grouped B) !! j = Some ","%char <-> (j < 4 * t /\ j mod 4 = 3)%nat).
Proof.
  induction t as [|t IH]; intros B j HB Hno.
  - destruct B; [|easy]. cbn. split; [reflexivity|]. split; [easy | lia].
  - destruct (split_last3 (3 * t) B ltac:(lia)) as (B' & a & b & c & -> & HB').
    apply Forall_app in Hno as [Hno' Habc].
    apply Forall_cons in Habc as [Ha Habc]. apply Forall_cons in Habc as [Hb Habc].
    apply Forall_cons in Habc as [Hc _].
    rewrite (grouped_app3 t) by exact HB'.
    rewrite length_app, rev_app_distr. cbn [rev app length].
    destruct j as [|[|[|[|j]]]]; cbn [lookup list_lookup].
    + destruct (IH B' 0%nat HB' Hno') as [-> _]. split; [lia|].
      split; [intros [= ->]; discriminate Hc | cbn; lia].
    + destruct (IH B' 0%nat HB' Hno') as [-> _]. split; [lia|].
      split; [intros [= ->]; discriminate Hb | cbn; lia].
    + destruct (IH B' 0%nat HB' Hno') as [-> _]. split; [lia|].
      split; [intros [= ->]; discriminate Ha | cbn; lia].
    + destruct (IH B' 0%nat HB' Hno') as [-> _]. split; [lia|].
      split; [cbn; lia | reflexivity].
    + destruct (IH B' j HB' Hno') as [-> Hj]. split; [lia|].
      rewrite Hj.
      replace (S (S (S (S j)))) with (j + 1 * 4)%nat by lia.
      rewrite Nat.Div0.mod_add. lia.
Qed.

(** Property X10: in the string of [FormatThousands], counted from its last
    byte (index 0), the commas are exactly the bytes at the indices 3, 7,
    11, ... that are not the first byte of the string: no comma leads the
    string or follows the sign. *)
Theorem FormatThousands_commas x : int64 x ->
  exists s, FormatThousands x = Some s
    /\ forall j : nat,
         rev (bytes_of_string s) !! j = Some ","%char
         <-> (j mod 4 = 3 /\ S j < length (bytes_of_string s))%nat.
Proof.
  intros Hx.
  destruct (FormatThousands_shape x Hx)
    as (A & B & t & HD & HB & HA & (ds & Hds & Hdig) & ->).
  assert (no_comma (A ++ B)) as Hno by (rewrite Hds; now apply to_bytes_no_comma).
  eexists. split; [reflexivity|]. intros j.
  unfold bytes_of_string, string_of_bytes.
  rewrite list_ascii_of_string_of_list_ascii.
  apply Forall_app in Hno as [HnoA HnoB].
  destruct (rev_grouped_comma t B j HB HnoB) as [Hlen Hj].
  rewrite !length_app, Hlen, !rev_app_distr.
  set (sign := if x <? 0 then ["-"%char] else []).
  assert (length sign <= 1)%nat as Hsign by (unfold sign; destruct (x <? 0); cbn; lia).
  assert (no_comma (rev A ++ rev sign)) as Hrest.
  { apply Forall_app. split; [now apply Forall_rev|].
    unfold sign. destruct (x <? 0); repeat constructor. }
  destruct (Nat.lt_ge_cases j (4 * t)) as [Hlt|Hge].
  - rewrite <- app_assoc, lookup_app_l by (rewrite length_rev; lia).
    rewrite Hj. lia.
  - rewrite <- app_assoc, lookup_app_r by (rewrite length_rev; lia).
    rewrite length_rev, Hlen. split.
    + intros Hc. exfalso.
      apply list_elem_of_lookup_2 in Hc.
      unfold no_comma in Hrest. rewrite Forall_forall in Hrest.
      specialize (Hrest _ Hc). discriminate Hrest.
    + intros [Hm Hl]. exfalso.
      pose proof (Nat.div_mod j 4 ltac:(lia)) as Hdm. rewrite Hm in Hdm.
      assert (j / 4 = t)%nat by nia. lia.
Qed.

Lemma FormatThousands_commas_witness :
  int64 (-123456)
  /\ exists s, FormatThousands (-123456) = Some s
       /\ forall j : nat,
            rev (bytes_of_string s) !! j = Some ","%char
            <-> (j mod 4 = 3 /\ S j < length (bytes_of_string s))%nat.
Proof.
  assert (int64 (-123456)) as H by (unfold int64, min_int64, max_int64; lia).
  split; [exact H | apply (FormatThousands_commas (-123456) H)].
Defined.

(** Property X11: on every int64 and for every precision [FormatInt]
    returns, and its string, the commas removed, is read back by
    [strconv.ParseInt] as the result of [RoundInt]. *)
Theorem FormatInt_parse_back x precision : int64 x ->
  exists r s, RoundInt x precision = Some r /\ FormatInt x precision = Some s
    /\ strconv.ParseInt (string_of_bytes (remove_commas (bytes_of_string s)))
       = (r, None).
Proof.
  intros Hx. destruct (RoundInt_some x precision Hx) as (r & Hr & Hir).
  destruct (FormatThousands_remove_commas r Hir) as (s & Hs & Hc).
  exists r, s. split; [exact Hr|]. split.
  - unfold FormatInt. rewrite Hr. exact Hs.
  - rewrite Hc. unfold string_of_bytes, bytes_of_string.
    rewrite string_of_list_ascii_of_string. now apply ParseInt_FormatInt.
Qed.

Lemma FormatInt_parse_back_witness :
  int64 5555555
  /\ exists r s, RoundInt 5555555 (-3) = Some r /\ FormatInt 5555555 (-3) = Some s
       /\ strconv.ParseInt (string_of_bytes (remove_commas (bytes_of_string s)))
          = (r, None).
Proof.
  assert (int64 5555555) as H by (unfold int64, min_int64, max_int64; lia).
  split; [exact H | apply (FormatInt_parse_back 5555555 (-3) H)].
Defined.

(** ** Further properties of RoundFloat *)

Lemma exact_value_truncate x n d : exact_value x = Some (n, d) ->
  0 < d /\ float64.truncate x = Some (n ÷ d).
Proof.
  destruct x as [s|s| |s m e]; cbn; try discriminate.
  - intros [= <- <-]. split; [lia | reflexivity].
  - destruct (Z.leb_spec 0 e); intros [= <- <-].
    + split; [lia|]. now rewrite Z.quot_1_r.
    + split; [apply Z.pow_pos_nonneg; lia | reflexivity].
Qed.

(** Rounding the integer part [a / d] of a fraction to a multiple of
    [10^k] rounds the fraction itself to the nearest multiple, a half
    upward. *)
Lemma nearest_multiple_fraction a d k : 0 <= a -> 0 < d -> 1 <= k ->
  let N := nearest_multiple (a / d) k in
  2 * Z.abs (N * d - a) <= 10 ^ k * d
  /\ (2 * Z.abs (N * d - a) = 10 ^ k * d -> a < N * d).
Proof.
  intros Ha Hd Hk N.
  assert (0 <= a / d) as Ht by (apply Z.div_pos; lia).
  pose proof (nearest_multiple_distance (a / d) k Ht Hk) as [Hdist Htie].
  fold N in Hdist, Htie.
  pose proof (Z.div_mod a d ltac:(lia)) as Hdm.
  pose proof (Z.mod_pos_bound a d Hd) as Hrho.
  destruct (pow10_split k Hk) as (E & _ & HP).
  set (h := 5 * 10 ^ (k - 1)) in *.
  assert (10 ^ k = 2 * h) as EP by (unfold h; lia).
  rewrite EP in *. clear E.
  set (t := a / d) in *. set (rho := a mod d) in *.
  set (u := N - t). assert (N = t + u) as EN by (unfold u; lia).
  assert (N * d - a = u * d - rho) as -> by (rewrite EN; lia).
  assert (a < N * d <-> 0 < u * d - rho) as -> by (rewrite EN; lia).
  assert (2 * h * d = 2 * (h * d)) as -> by ring.
  destruct (Z.lt_ge_cases 0 u) as [Hu|Hu].
  - assert (u <= h) as Huh by lia.
    assert (u * d <= h * d) by (apply Z.mul_le_mono_nonneg_r; lia).
    assert (1 * d <= u * d) by (apply Z.mul_le_mono_nonneg_r; lia).
    lia.
  - assert (- u + 1 <= h) as Huh by lia.
    assert ((- u + 1) * d <= h * d) by (apply Z.mul_le_mono_nonneg_r; lia).
    assert (0 <= (- u) * d) by (apply Z.mul_nonneg_nonneg; lia).
    lia.
Qed.

Lemma RoundFloat_round_int_spec x precision : float64.valid x -> precision < 0 ->
  RoundFloat x precision
  = Some (float64.of_int (round_int_spec (float64.to_int64 x) precision)).
Proof.
  intros Hv Hp. unfold RoundFloat. destruct (Z.ltb_spec precision 0); [|lia].
  rewrite <- (Modf_to_int64 x Hv). destruct (math.Modf x) as [i f]. cbn [fst].
  rewrite RoundInt_arith by (apply to_int64_int64 || assumption). reflexivity.
Qed.

Lemma to_int64_truncate x z : float64.truncate x = Some z -> int64 z ->
  float64.to_int64 x = z.
Proof.
  intros Hz [Hlo Hhi]. unfold float64.to_int64. rewrite Hz.
  destruct (Z.leb_spec min_int64 z); [|lia].
  destruct (Z.leb_spec z max_int64); [reflexivity | lia].
Qed.

(** Property X12: discarding the fraction before the rounding loses
    nothing.  For a negative precision and a float of the exact value
    [n / d] whose integer part is an int64, [RoundFloat] returns the float
    of the int64 [r] that [RoundInt] returns on the integer part, and [r],
    unless it is a bound of the range, is the multiple of
    [10 ^ (- precision)] nearest to [n / d] itself: it is such a multiple,
    it lies at most half a step from [n / d], and a half goes away from
    zero. *)
Theorem RoundFloat_nearest x precision n d :
  float64.valid x -> precision < 0 ->
  exact_value x = Some (n, d) -> int64 (n ÷ d) ->
  exists r, RoundInt (float64.to_int64 x) precision = Some r
    /\ RoundFloat x precision = Some (float64.of_int r) /\ int64 r
    /\ (r <> max_int64 -> r <> min_int64 ->
        (10 ^ (- precision) | r)
        /\ 2 * Z.abs (r * d - n) <= 10 ^ (- precision) * d
        /\ (2 * Z.abs (r * d - n) = 10 ^ (- precision) * d
            -> Z.abs n < Z.abs r * d)).
Proof.
  intros Hv Hp Hx Hi. destruct (exact_value_truncate x n d Hx) as [Hd Ht].
  rewrite (RoundFloat_round_int_spec x precision Hv Hp).
  rewrite (to_int64_truncate x _ Ht Hi).
  rewrite (RoundInt_arith _ precision Hi Hp).
  eexists. split; [reflexivity|]. split; [reflexivity|].
  split; [apply saturate_int64|].
  unfold round_int_spec. set (k := - precision). assert (1 <= k) as Hk by lia.
  assert (Z.abs (n ÷ d) = Z.abs n / d) as Habs.
  { destruct (Z.lt_ge_cases n 0) as [Hneg|Hpos].
    - rewrite (Z.abs_neq n) by lia. rewrite <- Z.quot_div_nonneg by lia.
      rewrite Z.quot_opp_l by lia.
      assert (0 <= (- n) ÷ d) by (apply Z.quot_pos; lia).
      rewrite Z.quot_opp_l in * by lia. lia.
    - rewrite (Z.abs_eq n) by lia. rewrite <- Z.quot_div_nonneg by lia.
      apply Z.abs_eq. apply Z.quot_pos; lia. }
  rewrite Habs.
  pose proof (nearest_multiple_fraction (Z.abs n) d k ltac:(lia) Hd Hk) as HN.
  cbv zeta in HN.
  pose proof (proj2 (nearest_multiple_zero_iff 0 k ltac:(lia) Hk)) as H0.
  assert (0 < 10 ^ k) as HPk by (apply Z.pow_pos_nonneg; lia).
  specialize (H0 ltac:(lia)).
  set (N := nearest_multiple (Z.abs n / d) k) in *.
  assert (0 <= N) as HN0
    by (apply nearest_multiple_nonneg; [apply Z.div_pos; lia | exact Hk]).
  destruct (nearest_multiple_quotient (Z.abs n / d) k
              ltac:(apply Z.div_pos; lia) Hk) as (q & _ & Hq).
  fold N in Hq.
  destruct (saturate_cases (Z.sgn (n ÷ d) * N)) as [[Hin ->]|[[Hhi ->]|[Hlo ->]]];
    [|easy|easy].
  intros _ _. split.
  { exists (Z.sgn (n ÷ d) * q). rewrite Hq. ring. }
  assert (Z.sgn (n ÷ d) * N = Z.sgn n * N) as ->.
  { destruct (Z.eq_dec (n ÷ d) 0) as [Ez|Hnz].
    - assert (N = 0) as -> by (unfold N; rewrite <- Habs, Ez; exact H0). lia.
    - f_equal.
      destruct (Z.lt_trichotomy n 0) as [Hneg|[->|Hpos]].
      + rewrite (Z.sgn_neg n) by assumption.
        apply Z.sgn_neg. pose proof (Z.quot_opp_l n d ltac:(lia)) as Ho.
        assert (0 <= (- n) ÷ d) by (apply Z.quot_pos; lia). lia.
      + now rewrite Z.quot_0_l by lia.
      + rewrite (Z.sgn_pos n) by assumption.
        apply Z.sgn_pos. assert (0 <= n ÷ d) by (apply Z.quot_pos; lia). lia. }
  destruct (Z.lt_trichotomy n 0) as [Hneg|[->|Hpos]].
  - rewrite (Z.sgn_neg n) by assumption. rewrite (Z.abs_neq n) in * by lia.
    replace (-1 * N * d - n) with (- (N * d - - n)) by ring.
    rewrite Z.abs_opp. replace (Z.abs (-1 * N)) with N by lia. exact HN.
  - change (Z.abs 0) with 0 in *. cbn [Z.sgn]. rewrite !Z.mul_0_l.
    cbn. split; [|]; nia.
  - rewrite (Z.sgn_pos n) by assumption. rewrite (Z.abs_eq n) in * by lia.
    rewrite Z.mul_1_l, (Z.abs_eq N) by lia. exact HN.
Qed.

Lemma RoundFloat_nearest_witness :
  exists r, RoundInt (float64.to_int64 (literal "55.555")) (-1) = Some r
    /\ RoundFloat (literal "55.555") (-1) = Some (float64.of_int r) /\ int64 r
    /\ (r <> max_int64 -> r <> min_int64 ->
        (10 ^ (- -1) | r)
        /\ 2 * Z.abs (r * 140737488355328 - 7818671165580247)
           <= 10 ^ (- -1) * 140737488355328
        /\ (2 * Z.abs (r * 140737488355328 - 7818671165580247)
            = 10 ^ (- -1) * 140737488355328
            -> Z.abs 7818671165580247 < Z.abs r * 140737488355328)).
Proof.
  assert (float64.valid (literal "55.555")) as Hv by (vm_compute; reflexivity).
  assert (-1 < 0) as Hp by lia.
  assert (exact_value (literal "55.555")
          = Some (7818671165580247, 140737488355328)) as Hx
    by (vm_compute; reflexivity).
  assert (int64 (7818671165580247 ÷ 140737488355328)) as Hi
    by (vm_compute; split; discriminate).
  exact (RoundFloat_nearest (literal "55.555") (-1) _ _ Hv Hp Hx Hi).
Defined.

(** ** float64: the conversion of an integer *)

Lemma size_53 m : 2 ^ 52 <= Z.pos m < 2 ^ 53 -> Z.pos (digits2_pos m) = 53.
Proof.
  intros [Hlo Hhi]. rewrite digits2_pos_size.
  pose proof (Pos.size_gt m) as Hgt. pose proof (Pos.size_le m) as Hle.
  apply Pos2Z.pos_lt_pos in Hgt. apply Pos2Z.pos_le_pos in Hle.
  rewrite Pos2Z.inj_pow in Hgt, Hle.
  change (Z.pos m~0) with (2 * Z.pos m) in Hle.
  set (d := Z.pos (Pos.size m)) in *.
  assert (0 < d) as Hd by (unfold d; lia). clearbody d.
  destruct (Z.lt_trichotomy d 53) as [Hlt|[->|Hgt']]; [|reflexivity|].
  - assert (2 ^ d <= 2 ^ 52) by (apply Z.pow_le_mono_r; lia). lia.
  - assert (2 ^ 54 <= 2 ^ d) by (apply Z.pow_le_mono_r; lia).
    change (2 ^ 54) with (2 * 2 ^ 53) in *. lia.
Qed.

(** A mantissa below [2^53] is shifted to 53 bits, and nothing is
    rounded. *)
Lemma binary_round_exact (s : bool) m e : Z.pos m < 2 ^ 53 -> -1021 <= e <= 971 ->
  exists mz ez,
    binary_round float64.prec float64.emax s m e = S754_finite s mz ez
    /\ e - 52 <= ez <= e /\ Z.pos mz = Z.pos m * 2 ^ (e - ez)
    /\ Z.pos (digits2_pos mz) = 53.
Proof.
  intros Hm He.
  pose proof (Pos.size_gt m) as Hgt. pose proof (Pos.size_le m) as Hle.
  apply Pos2Z.pos_lt_pos in Hgt. apply Pos2Z.pos_le_pos in Hle.
  rewrite Pos2Z.inj_pow in Hgt, Hle.
  change (Z.pos m~0) with (2 * Z.pos m) in Hle.
  rewrite <- digits2_pos_size in Hgt, Hle.
  set (d := Z.pos (digits2_pos m)) in *.
  assert (0 < d) as Hd by (unfold d; lia).
  assert (d <= 53) as Hd53.
  { destruct (Z.le_gt_cases d 53) as [|Hbig]; [assumption|].
    assert (2 ^ 54 <= 2 ^ d) by (apply Z.pow_le_mono_r; lia).
    change (2 ^ 54) with (2 * 2 ^ 53) in *. lia. }
  assert (exists mz, shl_align m e (fexp float64.prec float64.emax (d + e))
                     = (mz, e + (d - 53))
                     /\ Z.pos mz = Z.pos m * 2 ^ (53 - d)) as (mz & Hshl & Hmz).
  { unfold shl_align, fexp, emin, float64.prec, float64.emax.
    replace (Z.max (d + e - 53) (3 - 1024 - 53) - e) with (d - 53) by lia.
    replace (Z.max (d + e - 53) (3 - 1024 - 53)) with (e + (d - 53)) by lia.
    destruct (d - 53) as [|p|p] eqn:Ed; [|lia|].
    - exists m. split; [now rewrite Z.add_0_r|].
      replace (53 - d) with 0 by lia. lia.
    - exists (shift_pos p m). split; [reflexivity|].
      rewrite shift_pos_correct. replace (53 - d) with (Z.pos p) by lia.
      rewrite Z.mul_comm. reflexivity. }
  assert (2 ^ d * 2 ^ (53 - d) = 2 ^ 53) as Hsplit
    by (rewrite <- Z.pow_add_r by lia; f_equal; lia).
  assert (0 < 2 ^ (53 - d)) as Hpow by (apply Z.pow_pos_nonneg; lia).
  assert (2 ^ 52 <= Z.pos mz < 2 ^ 53) as Hrange.
  { rewrite Hmz. change (2 ^ 53) with (2 * 2 ^ 52) in *. nia. }
  pose proof (size_53 mz Hrange) as Hsize.
  exists mz, (e + (d - 53)). split; [|split; [lia|split; [|exact Hsize]]].
  - unfold binary_round. fold d. rewrite Hshl.
    unfold binary_round_aux, shr_fexp, Zdigits2. rewrite Hsize.
    unfold fexp, emin, float64.prec, float64.emax.
    replace (Z.max (53 + (e + (d - 53)) - 53) (3 - 1024 - 53) - (e + (d - 53)))
      with 0 by lia.
    cbn [shr shr_record_of_loc shr_m loc_of_shr_record round_nearest_even
         Zdigits2].
    rewrite Hsize.
    replace (Z.max (53 + (e + (d - 53)) - 53) (3 - 1024 - 53) - (e + (d - 53)))
      with 0 by lia.
    cbn [shr shr_record_of_loc shr_m].
    destruct (Z.leb_spec (e + (d - 53)) (1024 - 53)); [reflexivity | lia].
  - rewrite Hmz. f_equal. f_equal. lia.
Qed.

(** An integer below [2^53] in magnitude is a float64: the conversion
    loses nothing. *)
Lemma of_int_exact v : Z.abs v < 2 ^ 53 ->
  float64.valid (float64.of_int v) /\ float64.truncate (float64.of_int v) = Some v.
Proof.
  intros Hv.
  assert (forall (s : bool) m, Z.pos m < 2 ^ 53 ->
            float64.valid (binary_round float64.prec float64.emax s m 0)
            /\ float64.truncate (binary_round float64.prec float64.emax s m 0)
               = Some (cond_Zopp s (Z.pos m))) as H.
  { intros s m Hm.
    destruct (binary_round_exact s m 0 Hm ltac:(lia))
      as (mz & ez & -> & Hez & Hmz & Hsize).
    rewrite Z.sub_0_l in Hmz.
    split.
    - unfold float64.valid, valid_binary, bounded, canonical_mantissa.
      rewrite Hsize. unfold fexp, emin, float64.prec, float64.emax.
      apply andb_true_intro. split; [apply Z.eqb_eq | apply Z.leb_le]; lia.
    - unfold float64.truncate. rewrite Hmz.
      assert (0 < 2 ^ (- ez)) as Hpow by (apply Z.pow_pos_nonneg; lia).
      destruct (Z.leb_spec 0 ez) as [H0|H0]; f_equal.
      + replace ez with 0 by lia. destruct s; cbn [cond_Zopp]; cbn; lia.
      + destruct s; cbn [cond_Zopp].
        * rewrite Z.quot_opp_l by lia. now rewrite Z.quot_mul by lia.
        * now rewrite Z.quot_mul by lia. }
  destruct v as [|m|m].
  - split; reflexivity.
  - apply (H false m). lia.
  - apply (H true m). lia.
Qed.

Lemma to_int64_of_int v : Z.abs v < 2 ^ 53 -> float64.to_int64 (float64.of_int v) = v.
Proof.
  intros Hv. destruct (of_int_exact v Hv) as [_ Ht].
  apply (to_int64_truncate _ _ Ht).
  unfold int64, min_int64, max_int64.
  assert (2 ^ 53 = 9007199254740992) as E by reflexivity. lia.
Qed.

(** ** RoundFloat at a negative precision, below [2^53] *)

(** Property X13: for a negative precision, when the integer that
    [RoundInt] returns is below [2^53] in magnitude, the float that
    [RoundFloat] returns holds that integer exactly, and [RoundFloat] at the
    same precision returns it unchanged. *)
Theorem RoundFloat_idempotent x precision r :
  float64.valid x -> precision < 0 ->
  RoundInt (float64.to_int64 x) precision = Some r -> Z.abs r < 2 ^ 53 ->
  exists f, RoundFloat x precision = Some f
    /\ float64.to_int64 f = r
    /\ RoundFloat f precision = Some f.
Proof.
  intros Hv Hp Hr Hb.
  rewrite RoundInt_arith in Hr by (apply to_int64_int64 || assumption).
  injection Hr as Hr.
  exists (float64.of_int r).
  rewrite (RoundFloat_round_int_spec x precision Hv Hp), Hr.
  split; [reflexivity|]. split; [now apply to_int64_of_int|].
  rewrite (RoundFloat_round_int_spec _ precision (proj1 (of_int_exact r Hb)) Hp).
  rewrite (to_int64_of_int r Hb), <- Hr.
  rewrite round_int_spec_fixed by (apply to_int64_int64 || assumption).
  reflexivity.
Qed.

Lemma RoundFloat_idempotent_witness :
  exists f, RoundFloat (literal "55.555") (-1) = Some f
    /\ float64.to_int64 f = 60
    /\ RoundFloat f (-1) = Some f.
Proof.
  assert (float64.valid (literal "55.555")) as Hv by (vm_compute; reflexivity).
  assert (-1 < 0) as Hp by lia.
  assert (RoundInt (float64.to_int64 (literal "55.555")) (-1) = Some 60) as Hr
    by (vm_compute; reflexivity).
  assert (Z.abs 60 < 2 ^ 53) as Hb by (vm_compute; reflexivity).
  exact (RoundFloat_idempotent (literal "55.555") (-1) 60 Hv Hp Hr Hb).
Defined.

(** ** Properties of FormatFloat *)

Lemma bytes_of_string_append s1 s2 :
  bytes_of_string (String.append s1 s2) = bytes_of_string s1 ++ bytes_of_string s2.
Proof.
  unfold bytes_of_string. induction s1 as [|c s1 IH]; [reflexivity|].
  cbn. now rewrite IH.
Qed.

Lemma bytes_of_string_of_bytes b : bytes_of_string (string_of_bytes b) = b.
Proof. apply list_ascii_of_string_of_list_ascii. Qed.






(** The first byte of a grouped number is its sign or a digit. *)
Lemma FormatThousands_head x : int64 x ->
  exists s, FormatThousands x = Some s
    /\ (head (bytes_of_string s) = Some "-"%char <-> x < 0)
    /\ forall s', head (bytes_of_string (String.append s s'))
                  = head (bytes_of_string s).
Proof.
  intros Hx.
  destruct (FormatThousands_shape x Hx)
    as (A & B & t & HD & HB & HA & (ds & Hds & Hdig) & ->).
  eexists. split; [reflexivity|]. clear HD.
  rewrite bytes_of_string_of_bytes.
  destruct A as [|a A]; [cbn [length] in HA; lia|].
  destruct ds as [|d ds]; [discriminate Hds|].
  cbn [app to_bytes fmap list_fmap] in Hds.
  injection Hds as -> _. apply Forall_cons in Hdig as [Hd _].
  destruct (digit_byte_not_sign d Hd) as [_ Hm].
  split; [|intros s'; rewrite bytes_of_string_append, bytes_of_string_of_bytes;
           destruct (x <? 0); reflexivity].
  destruct (Z.ltb_spec x 0) as [Hneg|Hpos]; cbn [app head].
  - split; [intros _; exact Hneg | reflexivity].
  - split; [|lia]. intros [= E]. rewrite E in Hm. discriminate Hm.
Qed.

Lemma slice_from_some {A} (s : list A) lo : 0 <= lo <= len s ->
  slice_from s lo = Some (drop (Z.to_nat lo) s).
Proof.
  intros [H0 H1]. unfold slice_from.
  destruct (Z.leb_spec 0 lo); [|lia].
  destruct (Z.leb_spec lo (len s)); [reflexivity | lia].
Qed.


Example FormatFloat_sign_lost :
  FormatFloat (literal "-0.5") 1 = Some "0.5"%string
  /\ FormatFloat (literal "-0.25") 2 = Some "0.25"%string.
Proof. split; vm_compute; reflexivity. Qed.

Example readme_FormatFloat :
  FormatFloat (literal "5555.555") 2 = Some "5,555.56"%string
  /\ FormatFloat (literal "5555.555") 1 = Some "5,555.6"%string
  /\ FormatFloat (literal "5555.555") 0 = Some "5,556"%string
  /\ FormatFloat (literal "5555.555") (-1) = Some "5,560"%string
  /\ FormatFloat (literal "5555.555") (-2) = Some "5,600"%string.
Proof. repeat split; vm_compute; reflexivity. Qed.

(** ** At a negative precision *)

(** Property X15: for a negative precision, when the integer that
    [RoundInt] returns is below [2^53] in magnitude, [FormatFloat] is
    [FormatInt] on the integer part of [x]. *)
Theorem FormatFloat_negative_precision x precision r :
  float64.valid x -> precision < 0 ->
  RoundInt (float64.to_int64 x) precision = Some r -> Z.abs r < 2 ^ 53 ->
  FormatFloat x precision = FormatInt (float64.to_int64 x) precision
  /\ FormatFloat x precision = FormatThousands r
  /\ exists s, FormatFloat x precision = Some s.
Proof.
  intros Hv Hp Hr Hb.
  assert (int64 r) as Hir.
  { unfold int64, min_int64, max_int64.
    assert (2 ^ 53 = 9007199254740992) as E by reflexivity. lia. }
  assert (FormatFloat x precision = FormatThousands r) as HF.
  { unfold FormatFloat.
    rewrite (RoundFloat_round_int_spec x precision Hv Hp).
    rewrite RoundInt_arith in Hr by (apply to_int64_int64 || assumption).
    injection Hr as ->. cbn [mbind option_bind].
    destruct (of_int_exact r Hb) as [Hvr _].
    pose proof (Modf_to_int64 _ Hvr) as Hm.
    destruct (math.Modf (float64.of_int r)) as [i f]. cbn [fst] in Hm.
    rewrite Hm, (to_int64_of_int r Hb).
    destruct (FormatThousands r) as [istr|]; [|reflexivity].
    cbn [mbind option_bind].
    destruct (Z.leb_spec precision 0); [reflexivity | lia]. }
  split; [|split; [exact HF|]].
  - rewrite HF. unfold FormatInt. now rewrite Hr.
  - rewrite HF, (FormatThousands_spec r Hir). now eexists.
Qed.

Lemma FormatFloat_negative_precision_witness :
  FormatFloat (literal "5555.555") (-2)
  = FormatInt (float64.to_int64 (literal "5555.555")) (-2)
  /\ FormatFloat (literal "5555.555") (-2) = FormatThousands 5600
  /\ exists s, FormatFloat (literal "5555.555") (-2) = Some s.
Proof.
  assert (float64.valid (literal "5555.555")) as Hv by (vm_compute; reflexivity).
  assert (-2 < 0) as Hp by lia.
  assert (RoundInt (float64.to_int64 (literal "5555.555")) (-2) = Some 5600) as Hr
    by (vm_compute; reflexivity).
  assert (Z.abs 5600 < 2 ^ 53) as Hb by (vm_compute; reflexivity).
  exact (FormatFloat_negative_precision (literal "5555.555") (-2) 5600 Hv Hp Hr Hb).
Defined.

(** ** The fractional part of Modf *)

Lemma fraction_neg s f : fraction s f -> fraction (negb s) (float64.neg f).
Proof.
  intros [->|(m & e & -> & He & Hm)]; [now left|].
  right. now exists m, e.
Qed.

Lemma modf_nonneg_fraction m e : float64.valid (S754_finite false m e) ->
  fraction false (snd (math.modf_nonneg (S754_finite false m e))).
Proof.
  intros Hv. destruct (valid_finite false m e Hv) as (Hm & He & Hnorm).
  assert (2 ^ 52 = 4503599627370496) as E52 by reflexivity.
  assert (e <= 971) as Hemax.
  { unfold float64.valid, valid_binary, bounded in Hv.
    apply andb_prop in Hv as [_ Hv]. apply Z.leb_le in Hv.
    unfold float64.emax, float64.prec in Hv. lia. }
  assert (e < 0 -> Z.pos m < 2 ^ (- e) ->
          fraction false (S754_finite false m e)) as Hsmall.
  { intros He0 Hlt. right. now exists m, e. }
  assert (e < 0 -> 2 ^ (- e) <= Z.pos m -> -52 <= e ->
          fraction false
            (float64.sub (S754_finite false m e)
               (S754_finite false (Z.to_pos (Z.ldiff (Z.pos m) (Z.ones (- e)))) e)))
    as Hbig.
  { intros He0 Hge He52.
    set (k := - e) in *. assert (0 < k) as Hk by lia.
    assert (0 < 2 ^ k) as Hpow by (apply Z.pow_pos_nonneg; lia).
    assert (2 ^ k <= 2 ^ 52) as Hk52 by (apply Z.pow_le_mono_r; lia).
    assert (Z.pos (Z.to_pos (Z.ldiff (Z.pos m) (Z.ones k)))
            = Z.pos m - Z.pos m mod 2 ^ k) as Hcl.
    { rewrite Z.ldiff_ones_r, Z.shiftr_div_pow2, Z.shiftl_mul_pow2 by lia.
      assert (1 <= Z.pos m / 2 ^ k) by (apply Z.div_le_lower_bound; lia).
      rewrite Z2Pos.id by nia.
      pose proof (Z.div_mod (Z.pos m) (2 ^ k) ltac:(lia)). lia. }
    unfold float64.sub, SFsub. cbv zeta. rewrite Z.min_id.
    unfold shl_align. rewrite Z.sub_diag. cbn [fst cond_Zopp].
    rewrite Hcl.
    replace (Z.pos m - (Z.pos m - Z.pos m mod 2 ^ k)) with (Z.pos m mod 2 ^ k) by lia.
    pose proof (Z.mod_pos_bound (Z.pos m) (2 ^ k) Hpow) as Hrho.
    destruct (Z.pos m mod 2 ^ k) as [|rho|rho] eqn:Erho; [now left | | lia].
    unfold binary_normalize.
    destruct (binary_round_exact false rho e ltac:(lia) ltac:(lia))
      as (mz & ez & -> & Hez & Hmz & _).
    right. exists mz, ez. split; [reflexivity|]. split; [lia|].
    rewrite Hmz.
    assert (2 ^ k * 2 ^ (e - ez) = 2 ^ (- ez)) as <-
      by (rewrite <- Z.pow_add_r by lia; f_equal; lia).
    assert (0 < 2 ^ (e - ez)) by (apply Z.pow_pos_nonneg; lia).
    nia. }
  unfold math.modf_nonneg. rewrite ltb_one.
  change (float64.eqb (S754_finite false m e) float64.zero) with false.
  destruct (Z.compare_spec e (-52)) as [Heq|Hlt|Hgt].
  - assert (2 ^ (- e) = 4503599627370496) as Epow by (subst e; reflexivity).
    destruct (Pos.compare_spec m 4503599627370496) as [Hc|Hc|Hc].
    + destruct (Z.ltb_spec e 0); [|lia]. cbn [snd]. apply Hbig; lia.
    + apply Pos2Z.pos_lt_pos in Hc. cbn [snd]. apply Hsmall; lia.
    + apply Pos2Z.pos_lt_pos in Hc.
      destruct (Z.ltb_spec e 0); [|lia]. cbn [snd]. apply Hbig; lia.
  - cbn [snd]. apply Hsmall; [lia|].
    assert (2 ^ 53 <= 2 ^ (- e)) by (apply Z.pow_le_mono_r; lia). lia.
  - destruct (Z.ltb_spec e 0) as [He0|He0]; cbn [snd].
    + apply Hbig; [exact He0| |lia].
      assert (2 ^ (- e) <= 2 ^ 52) by (apply Z.pow_le_mono_r; lia).
      specialize (Hnorm ltac:(lia)). lia.
    + left. unfold float64.sub, SFsub. cbv zeta.
      now rewrite Z.sub_diag.
Qed.

(** The fractional part of [Modf] is below one in magnitude and has the
    sign of the float. *)
Lemma Modf_fraction x s : float64.valid x -> sign_bit x = Some s ->
  fraction s (snd (math.Modf x)).
Proof.
  intros Hv Hs. destruct x as [s'|s'| |s' m e]; try discriminate Hs;
    injection Hs as ->.
  - left. now destruct s.
  - assert (float64.valid (S754_finite false m e)) as Hv' by exact Hv.
    pose proof (modf_nonneg_fraction m e Hv') as H.
    destruct s.
    + unfold math.Modf.
      change (float64.ltb (S754_finite true m e) float64.one) with true.
      change (float64.ltb (S754_finite true m e) float64.zero) with true.
      cbn [andb float64.neg SFopp negb].
      destruct (math.modf_nonneg (S754_finite false m e)) as [int frac].
      cbn [snd] in *. apply (fraction_neg false frac H).
    + unfold math.Modf.
      change (float64.ltb (S754_finite false m e) float64.zero) with false.
      rewrite andb_false_r. exact H.
Qed.

(** ** The digits after the point *)

Lemma fixed_digits_spec n : forall u ds0, Forall is_digit ds0 ->
  exists ds, strconv.fixed_digits n u (to_bytes ds0) = to_bytes ds
    /\ Forall is_digit ds /\ length ds = (n + length ds0)%nat.
Proof.
  induction n as [|n IH]; intros u ds0 H0; cbn [strconv.fixed_digits].
  - now exists ds0.
  - assert (Forall is_digit (u mod 10 :: ds0)) as H1.
    { constructor; [|exact H0]. unfold is_digit.
      pose proof (Z.mod_pos_bound u 10 ltac:(lia)). lia. }
    destruct (IH (u / 10) (u mod 10 :: ds0) H1) as (ds & E & Hds & Hlen).
    exists ds. split; [exact E|]. split; [exact Hds|].
    rewrite Hlen. cbn [length]. lia.
Qed.

(** A fraction scaled by [10^p] rounds to at most [10^p]. *)
Lemma round_half_even_fraction m e p : e < 0 -> Z.pos m < 2 ^ (- e) -> 0 < p ->
  0 <= strconv.round_half_even (Z.pos m * 10 ^ p) e <= 10 ^ p.
Proof.
  intros He Hm Hp. unfold strconv.round_half_even.
  destruct (Z.leb_spec 0 e); [lia|].
  assert (0 < 2 ^ (- e)) as Hden by (apply Z.pow_pos_nonneg; lia).
  assert (0 < 10 ^ p) as Hpow by (apply Z.pow_pos_nonneg; lia).
  set (den := 2 ^ (- e)) in *. set (M := Z.pos m * 10 ^ p).
  assert (0 <= M / den) by (apply Z.div_pos; unfold M; nia).
  assert (M / den < 10 ^ p)
    by (apply Z.div_lt_upper_bound; [lia | unfold M; nia]).
  destruct (2 * (M mod den) <? den); [lia|].
  destruct (den <? 2 * (M mod den)); [lia|].
  destruct (Z.even (M / den)); lia.
Qed.

(** The string of a fraction: its sign, one digit, the point and
    [precision] digits. *)
Lemma FormatFloat_fraction s f precision : fraction s f -> 0 < precision ->
  exists c ds,
    bytes_of_string (strconv.FormatFloat f precision)
    = (if s then ["-"%char] else []) ++ c :: "."%char :: to_bytes ds
    /\ Forall is_digit ds /\ length ds = Z.to_nat precision.
Proof.
  intros Hf Hp.
  assert (0 < 10 ^ precision) as Hpow by (apply Z.pow_pos_nonneg; lia).
  assert (forall n, 0 <= n <= 10 ^ precision ->
            exists c ds,
              (if s then ["-"%char] else [])
                ++ strconv.decimal_digits (n / 10 ^ precision)
                ++ (if 0 <? precision
                    then "."%char
                         :: strconv.fixed_digits (Z.to_nat precision)
                              (n mod 10 ^ precision) []
                    else [])
              = (if s then ["-"%char] else []) ++ c :: "."%char :: to_bytes ds
              /\ Forall is_digit ds /\ length ds = Z.to_nat precision) as H.
  { intros n Hn. destruct (Z.ltb_spec 0 precision); [|lia].
    destruct (fixed_digits_spec (Z.to_nat precision) (n mod 10 ^ precision) []
                (Forall_nil_2 _)) as (ds & E & Hds & Hlen).
    change (to_bytes []) with (@nil byte) in E. rewrite E.
    assert (n / 10 ^ precision = 0 \/ n / 10 ^ precision = 1) as [->| ->].
    { destruct (Z.eq_dec n (10 ^ precision)) as [->|Hne].
      - right. apply Z.div_same. lia.
      - left. apply Z.div_small. lia. }
    - exists "0"%char, ds. split; [reflexivity|]. split; [exact Hds|].
      rewrite Hlen. cbn [length]. lia.
    - exists "1"%char, ds. split; [reflexivity|]. split; [exact Hds|].
      rewrite Hlen. cbn [length]. lia. }
  destruct Hf as [->|(m & e & -> & He & Hm)]; unfold strconv.FormatFloat;
    rewrite bytes_of_string_of_bytes.
  - apply H. lia.
  - apply H. now apply round_half_even_fraction.
Qed.

(** Property X17: for a positive precision, when the rounded value [r] is
    a zero or a finite float whose sign bit agrees with the test [x < 0],
    the result of [FormatFloat] is the grouping of the integer part of [r],
    a point, and exactly [precision] decimal digits. *)
Theorem FormatFloat_fraction_digits x precision r :
  0 < precision -> RoundFloat x precision = Some r -> float64.valid r ->
  sign_bit r = Some (float64.ltb x float64.zero) ->
  exists istr ds,
    FormatThousands (float64.to_int64 r) = Some istr
    /\ FormatFloat x precision
       = Some (String.append istr (String.append "." (string_of_bytes (to_bytes ds))))
    /\ length ds = Z.to_nat precision /\ Forall is_digit ds.
Proof.
  intros Hp Hr Hv Hs. unfold FormatFloat. rewrite Hr. cbn [mbind option_bind].
  pose proof (Modf_to_int64 r Hv) as Hi.
  pose proof (Modf_fraction r _ Hv Hs) as Hf.
  destruct (math.Modf r) as [i f]. cbn [fst snd] in Hi, Hf. rewrite Hi.
  destruct (FormatThousands_head _ (to_int64_int64 r)) as (istr & His & _).
  rewrite His. cbn [mbind option_bind].
  destruct (Z.leb_spec precision 0); [lia|].
  destruct (FormatFloat_fraction _ f precision Hf Hp) as (c & ds & E & Hds & Hlen).
  rewrite E. exists istr, ds. split; [reflexivity|].
  split; [|split; assumption].
  destruct (float64.ltb x float64.zero);
    (rewrite slice_from_some by (unfold len; cbn [app length]; lia));
    reflexivity.
Qed.

Lemma FormatFloat_fraction_digits_witness :
  exists istr ds,
    FormatThousands (float64.to_int64 (literal "-1234567.89")) = Some istr
    /\ FormatFloat (literal "-1234567.891") 2
       = Some (String.append istr (String.append "." (string_of_bytes (to_bytes ds))))
    /\ length ds = Z.to_nat 2 /\ Forall is_digit ds.
Proof.
  assert (0 < 2) as Hp by lia.
  assert (RoundFloat (literal "-1234567.891") 2 = Some (literal "-1234567.89")) as Hr
    by (vm_compute; reflexivity).
  assert (float64.valid (literal "-1234567.89")) as Hv by (vm_compute; reflexivity).
  assert (sign_bit (literal "-1234567.89")
          = Some (float64.ltb (literal "-1234567.891") float64.zero)) as Hs
    by (vm_compute; reflexivity).
  exact (FormatFloat_fraction_digits (literal "-1234567.891") 2
           (literal "-1234567.89") Hp Hr Hv Hs).
Defined.

(** ** The zeros, the infinities and the NaN in RoundFloat *)








(** ** Floats that are not numbers *)



(** ** The negative zero in FormatFloat *)



(** ** The implementation by scaling at a negative precision *)

(** Property X20: the implementation by scaling treats a negative precision
    as the implementation on digits does: [RoundFloat] discards the
    fraction of [x] toward zero and returns the float of its [RoundInt] on
    that integer. *)
Theorem Scaling_RoundFloat_truncates x precision z :
  float64.valid x -> precision < 0 ->
  float64.truncate x = Some z -> int64 z ->
  Scaling.RoundFloat x precision = float64.of_int (Scaling.RoundInt z precision).
Proof.
  intros Hv Hp Hz Hi. unfold Scaling.RoundFloat.
  destruct (Z.ltb_spec precision 0); [|lia].
  pose proof (Modf_to_int64 x Hv) as Hm.
  destruct (math.Modf x) as [i f]. cbn [fst] in Hm.
  now rewrite Hm, (to_int64_truncate x z Hz Hi).
Qed.

Lemma Scaling_RoundFloat_truncates_witness :
  Scaling.RoundFloat (literal "-0.6") (-1)
  = float64.of_int (Scaling.RoundInt 0 (-1)).
Proof.
  assert (float64.valid (literal "-0.6")) as Hv by (vm_compute; reflexivity).
  assert (-1 < 0) as Hp by lia.
  assert (float64.truncate (literal "-0.6") = Some 0) as Hz
    by (vm_compute; reflexivity).
  assert (int64 0) as Hi by (unfold int64, min_int64, max_int64; lia).
  exact (Scaling_RoundFloat_truncates (literal "-0.6") (-1) 0 Hv Hp Hz Hi).
Defined.
